(** * ERC-20 transfer metric: decode, aggregate and rank

    A shallow embedding of [main.go]: the block-range selection, the
    decode-and-count loop over the fetched logs, [SortAddressesByCount]
    and the top-five print loop of [main], with the properties of the
    specification proved about them. *)

From Stdlib Require Import ZArith List Permutation Sorted Ascii String Lia.
From Stdlib.Strings Require Import Byte.
From stdpp Require Import base option list sorting gmap fin_maps.

Local Open Scope Z_scope.

(** ** Machine integers

    Go's [int] is 64 bits wide on the platforms go-ethereum supports;
    [metric[k]++] wraps around in two's complement. *)

Definition int_bits : Z := 64.
Definition max_int : Z := 2 ^ (int_bits - 1) - 1.
Definition min_int : Z := - 2 ^ (int_bits - 1).

Definition wrap_int (z : Z) : Z :=
  (z + 2 ^ (int_bits - 1)) mod 2 ^ int_bits - 2 ^ (int_bits - 1).

(** ** Addresses, hashes and logs

    [common.Address] is a 20-byte array and [common.Hash] a 32-byte array;
    both are read as big-endian numbers of 160 and 256 bits. *)

Abbreviation common_Address := Z (only parsing).
Abbreviation common_Hash := Z (only parsing).

Definition AddressLength : Z := 20.

(** [common.Address{}], the all-zero address. *)
Definition zero_Address : common_Address := 0.

(** [common.HexToAddress(h.Hex())]: the 64 hex digits of the hash are
    parsed back to its 32 bytes and [SetBytes] keeps the last 20 of them. *)
Definition HexToAddress_Hex (h : common_Hash) : common_Address :=
  Z.land h (Z.ones (8 * AddressLength)).

(** [types.Log]: only the fields the program reads. *)
Record Log : Type := mkLog {
  Topics : list common_Hash;
  Data : list byte
}.

Record TransferEvents : Type := mkTransferEvents {
  From : common_Address;
  To : common_Address;
  Value : Z
}.

Record Metric : Type := mkMetric {
  Address : common_Address;
  Count : Z
}.

(** Go errors are opaque messages. *)
Definition error : Type := string.

(** [fmt.Errorf(prefix ++ "%v", err)]. *)
Definition Errorf (prefix : string) (err : error) : error :=
  (prefix ++ err)%string.

(** [ethereum.FilterQuery]: the fields the program sets; [nil] addresses
    and block hash are left out. *)
Module ethereum.
Record FilterQuery : Type := mkFilterQuery {
  FromBlock : Z;
  ToBlock : Z;
  Topics : list (list common_Hash)
}.
End ethereum.

(** ** Effects

    The program talks to the node and writes to standard output.  Every
    function that does so returns, next to its value, the events it
    produced, in order. *)

Inductive event : Type :=
| HeaderByNumber_call
| FilterLogs_call (query : ethereum.FilterQuery)
| Println_unpack_error (err : error)
| Printf_currentBlock_error (err : error)
| Printf_metric (address : common_Address) (count : Z).

Definition W (A : Type) : Type := (A * list event)%type.

Definition W_ret {A : Type} (a : A) : W A := (a, []).

Definition W_bind {A B : Type} (c : W A) (k : A -> W B) : W B :=
  let '(a, t1) := c in
  let '(b, t2) := k a in
  (b, t1 ++ t2).

Definition emit (e : event) : W unit := (tt, [e]).

Declare Scope W_scope.
Notation "x <- c ;; k" := (W_bind c (fun x => k))
  (at level 100, c at next level, right associativity) : W_scope.
Notation "c ;;; k" := (W_bind c (fun _ => k))
  (at level 100, right associativity) : W_scope.
Delimit Scope W_scope with W.

(** ** The aggregation map

    [map[common.Address]int] is a finite map; reading a missing key yields
    the zero value, and [m[k]++] stores the wrapped successor. *)

Definition map_get (m : gmap Z Z) (k : common_Address) : Z :=
  default 0 (m !! k).

Definition map_incr (k : common_Address) (m : gmap Z Z) : gmap Z Z :=
  <[k := wrap_int (map_get m k + 1)]> m.

(** ** Iterating over a map

    The order of [for k, v := range m] is unspecified and differs from run
    to run.  A run is described by the list of choices it makes: at each
    step the next entry is picked among the ones not yet visited. *)

Fixpoint take_at {A : Type} (n : nat) (l : list A) {struct l}
  : option (A * list A) :=
  match l with
  | [] => None
  | x :: l' =>
      match n with
      | O => Some (x, l')
      | S n' =>
          match take_at n' l' with
          | Some (y, rest) => Some (y, x :: rest)
          | None => None
          end
      end
  end.

Fixpoint visit_order {A : Type} (choices : list nat) (l : list A) : list A :=
  match choices with
  | [] => l
  | c :: choices' =>
      match take_at (c mod length l)%nat l with
      | Some (y, rest) => y :: visit_order choices' rest
      | None => l
      end
  end.

Definition map_range (choices : list nat) (m : gmap Z Z)
  : list (common_Address * Z) :=
  visit_order choices (map_to_list m).

(** ** [sort.Slice]

    For slices of at most twelve elements [sort.Slice] runs the insertion
    sort below: the element at index [i] is swapped towards the front
    while [less] holds between it and its left neighbour.  The sorted
    prefix is kept reversed, so that the neighbour is the head.  Longer
    slices are sorted by pattern-defeating quicksort, which may leave
    equal elements in another order; every such order is also reached by
    the insertion sort from a suitable iteration order of the map
    ([SortAddressesByCount_any_tie_order] below). *)

Section Sort.
Context {A : Type} (less : A -> A -> bool).

Fixpoint swap_front (x : A) (rev_prefix : list A) : list A :=
  match rev_prefix with
  | [] => [x]
  | p :: ps => if less x p then p :: swap_front x ps else x :: p :: ps
  end.

Definition insertionSort (data : list A) : list A :=
  reverse (fold_left (fun acc x => swap_front x acc) data []).

End Sort.

Definition sort_Slice {A : Type} (data : list A) (less : A -> A -> bool)
  : list A :=
  insertionSort less data.

(** ** [SortAddressesByCount] *)

Definition SortAddressesByCount (choices : list nat) (logsMap : gmap Z Z)
  : list Metric * option error :=
  if (size logsMap =? 0)%nat then
    ([], Some "no logs in map to sort"%string)
  else
    let counters :=
      fold_left
        (fun counters '(address, count) =>
           if decide (address <> zero_Address)
           then counters ++ [mkMetric address count]
           else counters)
        (map_range choices logsMap) [] in
    (sort_Slice counters (fun x y => Count x >? Count y), None).

(** ** External collaborators

    The node client, the ABI library and the hash function are not part of
    the program.  [ethclient.Client] is given by what its two calls
    answer.  An [abi.ABI] is given by how it decodes the non-indexed
    arguments of an event from a data payload; for [Transfer] that is the
    single [uint256] field [value]. *)

Record Client : Type := mkClient {
  HeaderByNumber : Z * option error;
  FilterLogs : ethereum.FilterQuery -> list Log * option error
}.

Record ABI : Type := mkABI {
  Unpack : string -> list byte -> Z * option error
}.

(** [abi.UnpackIntoInterface(&v, name, data)]: the decoded non-indexed
    arguments are copied into the fields of [v] that carry their names;
    the other fields of [v] keep their values.  On failure [v] is
    untouched. *)
Definition UnpackIntoInterface (contractAbi : ABI) (v : TransferEvents)
    (name : string) (data : list byte) : TransferEvents * option error :=
  match Unpack contractAbi name data with
  | (value, None) => (mkTransferEvents (From v) (To v) value, None)
  | (_, Some err) => (v, Some err)
  end.

(** [s] between two double-quote characters (code 34). *)
Definition quoted (s : string) : string :=
  (String "034"%char s ++ String "034"%char EmptyString)%string.

Definition abi_input (indexed : string) (name type : string) : string :=
  ("{" ++ quoted "indexed" ++ ":" ++ indexed ++ "," ++ quoted "name" ++ ":" ++ quoted name
   ++ "," ++ quoted "type" ++ ":" ++ quoted type ++ "}")%string.

(** The text of the event schema handed to [abi.JSON]. *)
Definition transferEventABI : string :=
  ("[{" ++ quoted "anonymous" ++ ":false," ++ quoted "inputs" ++ ":["
   ++ abi_input "true" "from" "address" ++ ","
   ++ abi_input "true" "to" "address" ++ ","
   ++ abi_input "false" "value" "uint256"
   ++ "]," ++ quoted "name" ++ ":" ++ quoted "Transfer" ++ ","
   ++ quoted "type" ++ ":" ++ quoted "event" ++ "}]")%string.

Definition transferEventSignature : string :=
  "Transfer(address,address,uint256)".

(** How a run of [main] ends. *)
Inductive outcome : Type :=
| Returned
| Fatal (msg : string)
| Panic_index_out_of_range (index : nat) (len : nat).

(** ** The program *)

Section Program.

Local Open Scope W_scope.
Local Open Scope string_scope.

(** [crypto.Keccak256Hash] and [abi.JSON]. *)
Variable Keccak256Hash : string -> common_Hash.
Variable abi_JSON : string -> ABI * option error.

(** Startup: [godotenv.Load], [os.Getenv] and [ethclient.DialContext]. *)
Variable godotenv_Load : option error.
Variable os_Getenv : string -> string.
Variable DialContext : string -> Client * option error.

(** The query built from the head's number in [currentBlock]. *)
Definition filterQuery (latestBlockNumber : Z) : ethereum.FilterQuery :=
  let blockNumber := latestBlockNumber - 99 in
  let transferEventHash := Keccak256Hash transferEventSignature in
  ethereum.mkFilterQuery blockNumber latestBlockNumber [[transferEventHash]].

(** One turn of the loop over [logs]. *)
Definition count_log (contractAbi : ABI) (metric : gmap Z Z) (vLog : Log)
  : W (gmap Z Z) :=
  if negb (length (Topics vLog) =? 3)%nat || (length (Data vLog) =? 0)%nat
  then W_ret metric
  else
    let transferEvent :=
      mkTransferEvents (HexToAddress_Hex (nth 1 (Topics vLog) 0))
                       (HexToAddress_Hex (nth 2 (Topics vLog) 0)) 0 in
    match UnpackIntoInterface contractAbi transferEvent "Transfer" (Data vLog) with
    | (_, Some err) => emit (Println_unpack_error err) ;;; W_ret metric
    | (transferEvent, None) =>
        W_ret (map_incr (To transferEvent) (map_incr (From transferEvent) metric))
    end.

Fixpoint count_logs (contractAbi : ABI) (metric : gmap Z Z) (logs : list Log)
  : W (gmap Z Z) :=
  match logs with
  | [] => W_ret metric
  | vLog :: logs' =>
      metric' <- count_log contractAbi metric vLog ;;
      count_logs contractAbi metric' logs'
  end.

Definition currentBlock (choices : list nat) (client : Client)
  : W (list Metric * option error) :=
  emit HeaderByNumber_call ;;;
  match HeaderByNumber client with
  | (_, Some err) =>
      W_ret ([], Some (Errorf "failed to retrieve the latest block header: " err))
  | (latestBlockNumber, None) =>
      let query := filterQuery latestBlockNumber in
      emit (FilterLogs_call query) ;;;
      match FilterLogs client query with
      | (_, Some err) => W_ret ([], Some (Errorf "failed to filter logs: " err))
      | (logs, None) =>
          match abi_JSON transferEventABI with
          | (_, Some err) =>
              W_ret ([], Some (Errorf "failed in marshall abi contract: " err))
          | (contractAbi, None) =>
              metric <- count_logs contractAbi ∅ logs ;;
              W_ret (SortAddressesByCount choices metric)
          end
      end
  end.

(** [for i := 0; i < 5; i++ { fmt.Printf(..., metrics[i]...) }], started at
    [i] with [5 - i] turns left. *)
Fixpoint print_loop (metrics : list Metric) (i : nat) (turns : nat) : W outcome :=
  match turns with
  | O => W_ret Returned
  | S turns' =>
      match metrics !! i with
      | None => W_ret (Panic_index_out_of_range i (length metrics))
      | Some m =>
          emit (Printf_metric (Address m) (Count m)) ;;;
          print_loop metrics (S i) turns'
      end
  end.

Definition main (choices : list nat) : W outcome :=
  match godotenv_Load with
  | Some _ => W_ret (Fatal "error loading .env file")
  | None =>
      let apiKey := os_Getenv "ETH_API_KEY" in
      let url := "https://go.getblock.io/" ++ apiKey in
      match DialContext url with
      | (_, Some _) => W_ret (Fatal "error in dialing Ethereum client")
      | (client, None) =>
          r <- currentBlock choices client ;;
          (match snd r with
           | Some err => emit (Printf_currentBlock_error err)
           | None => W_ret tt
           end) ;;;
          print_loop (fst r) 0 5
      end
  end.

End Program.

(** ** Vocabulary of the properties *)

(** A log the loop does not skip at its first test. *)
Definition well_formed (vLog : Log) : bool :=
  (length (Topics vLog) =? 3)%nat && negb (length (Data vLog) =? 0)%nat.

(** A log with a topic count other than three or an empty payload. *)
Definition malformed (vLog : Log) : Prop :=
  length (Topics vLog) <> 3%nat \/ Data vLog = [].

(** The entries of an iteration that [SortAddressesByCount] keeps. *)
Definition kept_entries (l : list (common_Address * Z)) : list Metric :=
  map (fun p => mkMetric (fst p) (snd p))
      (filter (fun p => fst p <> zero_Address) l).

(** The [less] closure handed to [sort.Slice], and the order it sorts by. *)
Definition count_less (x y : Metric) : bool := Count x >? Count y.
Definition count_le : relation Metric := fun x y => Count x <= Count y.

(** Counts decrease, weakly, from each index to the next. *)
Definition descending (r : list Metric) : Prop :=
  forall (i : nat) (x y : Metric),
    r !! i = Some x -> r !! S i = Some y -> Count x >= Count y.

(** The line [main] prints for one entry. *)
Definition print_line (m : Metric) : event :=
  Printf_metric (Address m) (Count m).

(** The filter queries among the events of a run. *)
Definition queries_issued (t : list event) : list ethereum.FilterQuery :=
  omap (fun e => match e with FilterLogs_call query => Some query | _ => None end) t.

(** Every count stored in the map lies between [1] and [n]. *)
Definition counts_within (n : Z) (m : gmap Z Z) : Prop :=
  forall (a : common_Address) (c : Z), m !! a = Some c -> 1 <= c <= n.

(** No key of the map is a non-zero address. *)
Definition no_nonzero_address (m : gmap Z Z) : Prop :=
  forall k : common_Address, k <> zero_Address -> m !! k = None.

(** The sender and the receiver the loop counts for a log, when it counts
    the log at all: three topics, a payload, and a payload that decodes. *)
Definition decode_log (contractAbi : ABI) (vLog : Log)
  : option (common_Address * common_Address) :=
  if well_formed vLog then
    match snd (Unpack contractAbi "Transfer" (Data vLog)) with
    | None => Some (HexToAddress_Hex (nth 1 (Topics vLog) 0),
                    HexToAddress_Hex (nth 2 (Topics vLog) 0))
    | Some _ => None
    end
  else None.

(** The line the loop prints for a log, when it prints one. *)
Definition decode_failure (contractAbi : ABI) (vLog : Log) : option event :=
  if well_formed vLog then
    match snd (Unpack contractAbi "Transfer" (Data vLog)) with
    | Some err => Some (Println_unpack_error err)
    | None => None
    end
  else None.

(** The transfers counted among the logs, in log order. *)
Definition transfers (contractAbi : ABI) (logs : list Log)
  : list (common_Address * common_Address) :=
  omap (decode_log contractAbi) logs.

(** The keys incremented for a list of transfers, in order. *)
Definition endpoints (ts : list (common_Address * common_Address))
  : list common_Address :=
  flat_map (fun t => [fst t; snd t]) ts.

Definition occurrences (a : common_Address) (ks : list common_Address) : Z :=
  Z.of_nat (length (filter (fun k => k = a) ks)).

(** How often an address is the sender, plus how often it is the receiver. *)
Definition mentions (a : common_Address)
    (ts : list (common_Address * common_Address)) : Z :=
  Z.of_nat (length (filter (fun t => fst t = a) ts))
  + Z.of_nat (length (filter (fun t => snd t = a) ts)).

(** The sum of the counts stored in a map. *)
Definition total_count (m : gmap Z Z) : Z :=
  map_fold (fun _ c acc => c + acc) 0 m.

(** The non-zero addresses that send or receive in a counted transfer. *)
Definition participants (contractAbi : ABI) (logs : list Log) : gset Z :=
  list_to_set (endpoints (transfers contractAbi logs)) ∖ {[zero_Address]}.

(** ** Sample data *)

Definition be_uint (bs : list byte) : Z :=
  fold_left (fun acc b => acc * 256 + Z.of_N (Byte.to_N b)) bs 0.

(** A decoder for the single [uint256] argument of [Transfer]: it needs
    one 32-byte word. *)
Definition example_ABI : ABI :=
  mkABI (fun _ data =>
           if (32 <=? length data)%nat
           then (be_uint (take 32 data), None)
           else (0, Some "abi: cannot marshal in to go type: length insufficient"%string)).

(** The Keccak-256 hash of the [Transfer] signature, for every input. *)
Definition example_hash (_ : string) : common_Hash :=
  0xddf252ad1be2c89b69c2b068fc378daa952ba7f163c4a11628f55a4df523b3ef.

Definition example_abi_JSON (_ : string) : ABI * option error :=
  (example_ABI, None).

Definition word32 : list byte := repeat x00 31 ++ [x01].

Definition transfer_log (from to : common_Hash) (data : list byte) : Log :=
  mkLog [example_hash transferEventSignature; from; to] data.

Definition addr_A : common_Address := 0xA11CE.
Definition addr_B : common_Address := 0xB0B.

Definition example_logs : list Log :=
  [transfer_log addr_A addr_B word32;
   transfer_log addr_B addr_A word32;
   transfer_log addr_A addr_A word32].

Definition example_client (head : Z) (logs : list Log) : Client :=
  mkClient (head, None) (fun _ => (logs, None)).

(** A log whose payload is too short for a [uint256]. *)
Definition short_log : Log := transfer_log addr_A addr_B [x2a].

(** A node that cannot be reached. *)
Definition unreachable_client : Client :=
  mkClient (0, Some "connection refused"%string)
           (fun _ => ([], Some "connection refused"%string)).

Definition example_Getenv (_ : string) : string := "key"%string.

(** ** Proof steps *)

(** A lookup through a stack of inserts at known keys. *)
Ltac solve_lookup :=
  repeat (rewrite lookup_insert_ne by congruence);
  first [apply lookup_insert_eq | apply lookup_empty].

(** A closed number lies in the range of [int]. *)
Ltac solve_int_range :=
  split; vm_compute; discriminate.

(** * Properties *)

(** ** Machine integers *)

Lemma wrap_int_small (z : Z) : min_int <= z <= max_int -> wrap_int z = z.
Proof.
  unfold wrap_int, min_int, max_int, int_bits. intros Hz.
  rewrite Z.mod_small; lia.
Qed.

Lemma max_int_pos : 0 < max_int.
Proof. reflexivity. Qed.

Lemma min_int_neg : min_int < 0.
Proof. reflexivity. Qed.

(** ** Iteration order *)

Lemma take_at_Permutation {A : Type} (n : nat) (l : list A) y rest :
  take_at n l = Some (y, rest) -> l ≡ₚ y :: rest.
Proof.
  revert n y rest. induction l as [|x l IH]; intros n y rest; simpl.
  - discriminate.
  - destruct n as [|n].
    + intros [= <- <-]. reflexivity.
    + destruct (take_at n l) as [[z r]|] eqn:E; [|discriminate].
      intros [= <- <-]. rewrite (IH _ _ _ E). apply perm_swap.
Qed.

Lemma visit_order_Permutation {A : Type} (choices : list nat) (l : list A) :
  visit_order choices l ≡ₚ l.
Proof.
  revert l. induction choices as [|c cs IH]; intros l; simpl; [reflexivity|].
  destruct (take_at (c mod length l) l) as [[y rest]|] eqn:E; [|reflexivity].
  rewrite (take_at_Permutation _ _ _ _ E). constructor. apply IH.
Qed.

Lemma take_at_elem {A : Type} (l1 l2 : list A) (y : A) :
  take_at (length l1) (l1 ++ y :: l2) = Some (y, l1 ++ l2).
Proof.
  induction l1 as [|x l1 IH]; simpl; [reflexivity|]. now rewrite IH.
Qed.

(** Every order of the entries is the order of some run. *)
Lemma visit_order_complete {A : Type} (l l' : list A) :
  l' ≡ₚ l -> exists choices, visit_order choices l = l'.
Proof.
  revert l. induction l' as [|y l' IH]; intros l Hp.
  - apply Permutation_nil in Hp. subst. now exists [].
  - assert (Hin : y ∈ l) by (rewrite <- Hp; left).
    apply list_elem_of_split in Hin as (l1 & l2 & ->).
    apply Permutation_cons_app_inv in Hp.
    destruct (IH _ Hp) as [cs Hcs].
    exists (length l1 :: cs). simpl.
    rewrite Nat.mod_small by (rewrite length_app; simpl; lia).
    rewrite take_at_elem. now rewrite Hcs.
Qed.

Lemma map_range_Permutation (choices : list nat) (m : gmap Z Z) :
  map_range choices m ≡ₚ map_to_list m.
Proof. apply visit_order_Permutation. Qed.

(** ** The insertion sort *)

Section SortFacts.
Context {A : Type} (less : A -> A -> bool).

Lemma swap_front_Permutation (x : A) (acc : list A) :
  swap_front less x acc ≡ₚ x :: acc.
Proof.
  induction acc as [|p ps IH]; simpl; [reflexivity|].
  destruct (less x p); [|reflexivity].
  rewrite IH. apply perm_swap.
Qed.

Lemma insertion_fold_Permutation (data acc : list A) :
  fold_left (fun acc x => swap_front less x acc) data acc ≡ₚ data ++ acc.
Proof.
  revert acc. induction data as [|x data IH]; intros acc; simpl; [reflexivity|].
  rewrite IH, swap_front_Permutation. symmetry; apply Permutation_middle.
Qed.

Lemma insertionSort_Permutation (data : list A) :
  insertionSort less data ≡ₚ data.
Proof.
  unfold insertionSort. rewrite reverse_Permutation, insertion_fold_Permutation.
  now rewrite app_nil_r.
Qed.

(** [R a b]: [a] may stay to the right of [b]. *)
Variable R : relation A.
Hypothesis less_true : forall x p, less x p = true -> R p x.
Hypothesis less_false : forall x p, less x p = false -> R x p.

Lemma swap_front_HdRel (p x : A) (ps : list A) :
  R p x -> HdRel R p ps -> HdRel R p (swap_front less x ps).
Proof.
  intros Hpx Hhd. destruct ps as [|p' ps]; simpl; [now constructor|].
  inversion_clear Hhd. destruct (less x p'); now constructor.
Qed.

Lemma swap_front_Sorted (x : A) (acc : list A) :
  Sorted R acc -> Sorted R (swap_front less x acc).
Proof.
  induction 1 as [|p ps Hs IH Hhd]; simpl; [repeat constructor|].
  destruct (less x p) eqn:E.
  - constructor; [exact IH|]. apply swap_front_HdRel; auto.
  - repeat constructor; auto.
Qed.

Lemma insertion_fold_Sorted (data acc : list A) :
  Sorted R acc -> Sorted R (fold_left (fun acc x => swap_front less x acc) data acc).
Proof.
  revert acc. induction data as [|x data IH]; intros acc Hs; simpl; [exact Hs|].
  apply IH, swap_front_Sorted, Hs.
Qed.

Lemma insertionSort_Sorted (data : list A) :
  Sorted (flip R) (insertionSort less data).
Proof. apply Sorted_reverse, insertion_fold_Sorted. constructor. Qed.

(** A slice that is already in order is left as it is. *)
Lemma insertion_fold_sorted_id (data acc : list A) :
  Sorted (flip R) (reverse acc ++ data) ->
  (forall x p, R x p -> less x p = false) ->
  fold_left (fun acc x => swap_front less x acc) data acc = reverse data ++ acc.
Proof.
  intros Hs Hless. revert acc Hs.
  induction data as [|x data IH]; intros acc Hs; simpl; [reflexivity|].
  assert (Hx : swap_front less x acc = x :: acc).
  { destruct acc as [|p ps]; simpl; [reflexivity|].
    rewrite Hless; [reflexivity|].
    rewrite reverse_cons, <- !app_assoc in Hs. simpl in Hs.
    clear -Hs. induction (reverse ps) as [|z zs IHz]; simpl in Hs.
    - inversion_clear Hs as [|? ? _ Hhd]. now inversion_clear Hhd.
    - inversion_clear Hs. auto. }
  rewrite Hx, IH.
  - rewrite reverse_cons, <- app_assoc. reflexivity.
  - rewrite reverse_cons, <- app_assoc. exact Hs.
Qed.

Lemma insertionSort_sorted_id (data : list A) :
  Sorted (flip R) data ->
  (forall x p, R x p -> less x p = false) ->
  insertionSort less data = data.
Proof.
  intros Hs Hless. unfold insertionSort.
  rewrite insertion_fold_sorted_id; auto.
  now rewrite app_nil_r, reverse_involutive.
Qed.

End SortFacts.

(** ** [SortAddressesByCount] *)

Lemma count_less_true (x p : Metric) : count_less x p = true -> count_le p x.
Proof. unfold count_less, count_le. lia. Qed.

Lemma count_less_false (x p : Metric) : count_less x p = false -> count_le x p.
Proof. unfold count_less, count_le. lia. Qed.

Lemma count_le_not_less (x p : Metric) : count_le x p -> count_less x p = false.
Proof. unfold count_less, count_le. lia. Qed.

Lemma counters_fold (l : list (common_Address * Z)) (acc : list Metric) :
  fold_left
    (fun counters '(address, count) =>
       if decide (address <> zero_Address)
       then counters ++ [mkMetric address count]
       else counters) l acc
  = acc ++ kept_entries l.
Proof.
  unfold kept_entries. revert acc.
  induction l as [|[a c] l IH]; intros acc; simpl.
  - now rewrite app_nil_r.
  - rewrite IH, filter_cons. simpl. destruct (decide (a <> zero_Address)); simpl.
    + now rewrite <- app_assoc.
    + reflexivity.
Qed.

Lemma SortAddressesByCount_empty (choices : list nat) :
  SortAddressesByCount choices ∅ = ([], Some "no logs in map to sort"%string).
Proof. reflexivity. Qed.

Lemma SortAddressesByCount_nonempty (choices : list nat) (m : gmap Z Z) :
  m <> ∅ ->
  SortAddressesByCount choices m
  = (insertionSort count_less (kept_entries (map_range choices m)), None).
Proof.
  intros Hne. unfold SortAddressesByCount.
  apply map_size_non_empty_iff in Hne.
  destruct (Nat.eqb_spec (size m) 0) as [E|_]; [contradiction|].
  now rewrite counters_fold.
Qed.

Lemma kept_entries_Permutation (l l' : list (common_Address * Z)) :
  l ≡ₚ l' -> kept_entries l ≡ₚ kept_entries l'.
Proof. intros Hp. unfold kept_entries. now rewrite Hp. Qed.

Lemma SortAddressesByCount_Permutation (choices : list nat) (m : gmap Z Z) :
  fst (SortAddressesByCount choices m) ≡ₚ kept_entries (map_to_list m).
Proof.
  destruct (decide (m = ∅)) as [->|Hne].
  - rewrite SortAddressesByCount_empty, map_to_list_empty. reflexivity.
  - rewrite SortAddressesByCount_nonempty by exact Hne. simpl.
    rewrite insertionSort_Permutation.
    apply kept_entries_Permutation, map_range_Permutation.
Qed.

Lemma elem_of_kept_entries (l : list (common_Address * Z)) (x : Metric) :
  x ∈ kept_entries l <-> Address x <> zero_Address /\ (Address x, Count x) ∈ l.
Proof.
  unfold kept_entries. rewrite list_elem_of_fmap. split.
  - intros ([a c] & -> & Hin). apply list_elem_of_filter in Hin. exact Hin.
  - intros [Hnz Hin]. exists (Address x, Count x). split.
    + now destruct x.
    + apply list_elem_of_filter. now split.
Qed.

(** The ranked sequence holds exactly the non-zero keys of the map, each
    with its count. *)
Lemma elem_of_SortAddressesByCount (choices : list nat) (m : gmap Z Z) (x : Metric) :
  x ∈ fst (SortAddressesByCount choices m)
  <-> Address x <> zero_Address /\ m !! Address x = Some (Count x).
Proof.
  rewrite SortAddressesByCount_Permutation, elem_of_kept_entries.
  now rewrite elem_of_map_to_list.
Qed.

Lemma SortAddressesByCount_Sorted (choices : list nat) (m : gmap Z Z) :
  Sorted (flip count_le) (fst (SortAddressesByCount choices m)).
Proof.
  destruct (decide (m = ∅)) as [->|Hne].
  - rewrite SortAddressesByCount_empty. constructor.
  - rewrite SortAddressesByCount_nonempty by exact Hne. simpl.
    apply insertionSort_Sorted;
      auto using count_less_true, count_less_false.
Qed.

Lemma Sorted_lookup_next {A : Type} (R : relation A) (l : list A) (i : nat) x y :
  Sorted R l -> l !! i = Some x -> l !! S i = Some y -> R x y.
Proof.
  intros Hs. revert i. induction Hs as [|a l Hs IH Hhd]; intros i Hx Hy.
  - discriminate.
  - destruct i as [|i]; simpl in *.
    + injection Hx as ->. destruct l as [|b l]; [discriminate|].
      injection Hy as ->. now inversion_clear Hhd.
    + eauto.
Qed.

Lemma SortAddressesByCount_descending (choices : list nat) (m : gmap Z Z) :
  descending (fst (SortAddressesByCount choices m)).
Proof.
  intros i x y Hx Hy.
  pose proof (Sorted_lookup_next _ _ _ _ _
                (SortAddressesByCount_Sorted choices m) Hx Hy) as H.
  unfold flip, count_le in H. lia.
Qed.

(** With [SortAddressesByCount_any_tie_order]: over all iteration orders
    of a non-empty map, the function returns exactly the orderings of the
    kept entries by descending count. *)
Lemma SortAddressesByCount_sound (choices : list nat) (m : gmap Z Z) :
  fst (SortAddressesByCount choices m) ≡ₚ kept_entries (map_to_list m)
  /\ Sorted (flip count_le) (fst (SortAddressesByCount choices m)).
Proof.
  split; [apply SortAddressesByCount_Permutation | apply SortAddressesByCount_Sorted].
Qed.

Lemma kept_entries_dropped (l : list (common_Address * Z)) :
  kept_entries (filter (fun p => ~ fst p <> zero_Address) l) = [].
Proof.
  unfold kept_entries. induction l as [|p l IH]; [reflexivity|].
  rewrite filter_cons. destruct (decide (~ fst p <> zero_Address)) as [H|H].
  - rewrite filter_cons. destruct (decide (fst p <> zero_Address)); [contradiction|].
    exact IH.
  - exact IH.
Qed.

(** Whatever order [sort.Slice] leaves equal counts in, some iteration
    order of the map makes the insertion sort produce it. *)
Lemma SortAddressesByCount_any_tie_order (m : gmap Z Z) (r : list Metric) :
  m <> ∅ ->
  r ≡ₚ kept_entries (map_to_list m) ->
  Sorted (flip count_le) r ->
  exists choices, SortAddressesByCount choices m = (r, None).
Proof.
  intros Hne Hp Hs.
  set (l' := map (fun x => (Address x, Count x)) r
             ++ filter (fun p => ~ fst p <> zero_Address) (map_to_list m)).
  assert (Hl' : l' ≡ₚ map_to_list m).
  { unfold l'. rewrite Hp. unfold kept_entries. rewrite map_map. simpl.
    rewrite (map_ext _ id), map_id by (now intros []).
    apply filter_app_complement. }
  destruct (visit_order_complete _ _ Hl') as [choices Hc].
  exists choices. rewrite SortAddressesByCount_nonempty by exact Hne.
  unfold map_range. rewrite Hc. f_equal.
  assert (Hk : kept_entries l' = r).
  { assert (Hnz : Forall (fun x => Address x <> zero_Address) r).
    { apply Forall_forall. intros x Hx. rewrite Hp in Hx. now apply elem_of_kept_entries in Hx. }
    unfold l'. clear -Hnz. induction Hnz as [|x r Hx _ IH]; simpl.
    - apply kept_entries_dropped.
    - unfold kept_entries in *. rewrite filter_cons. simpl.
      destruct (decide (Address x <> zero_Address)); [|contradiction].
      simpl. rewrite IH. now destruct x. }
  rewrite Hk.
  apply (insertionSort_sorted_id count_less count_le); auto using count_le_not_less.
Qed.

(** ** Events *)

Lemma W_bind_fst {A B : Type} (c : W A) (k : A -> W B) :
  fst (W_bind c k) = fst (k (fst c)).
Proof. unfold W_bind. destruct c as [a t1]. simpl. now destruct (k a). Qed.

Lemma W_bind_snd {A B : Type} (c : W A) (k : A -> W B) :
  snd (W_bind c k) = snd c ++ snd (k (fst c)).
Proof. unfold W_bind. destruct c as [a t1]. simpl. now destruct (k a). Qed.

Lemma W_bind_eq {A B : Type} (c : W A) (k : A -> W B) :
  W_bind c k = (fst (k (fst c)), snd c ++ snd (k (fst c))).
Proof. unfold W_bind. destruct c as [a t1]. simpl. now destruct (k a). Qed.

(** ** The aggregation map *)

Lemma map_get_incr (k a : common_Address) (m : gmap Z Z) :
  map_get (map_incr k m) a
  = if decide (a = k) then wrap_int (map_get m k + 1) else map_get m a.
Proof.
  unfold map_incr, map_get at 1. destruct (decide (a = k)) as [->|Hne].
  - now rewrite lookup_insert_eq.
  - now rewrite lookup_insert_ne by congruence.
Qed.

Lemma counts_within_get (n : Z) (m : gmap Z Z) (a : common_Address) :
  counts_within n m -> 0 <= n -> 0 <= map_get m a <= n.
Proof.
  intros Hm Hn. unfold map_get. destruct (m !! a) as [c|] eqn:E; simpl.
  - specialize (Hm _ _ E). lia.
  - lia.
Qed.

Lemma counts_within_incr (n : Z) (k : common_Address) (m : gmap Z Z) :
  counts_within n m -> 0 <= n < max_int ->
  counts_within (n + 1) (map_incr k m).
Proof.
  intros Hm Hn a c. unfold map_incr.
  pose proof (counts_within_get n m k Hm ltac:(lia)) as Hk.
  pose proof min_int_neg.
  destruct (decide (a = k)) as [->|Hne].
  - rewrite lookup_insert_eq. intros [= <-].
    rewrite wrap_int_small; lia.
  - rewrite lookup_insert_ne by congruence. intros E.
    specialize (Hm _ _ E). lia.
Qed.

Lemma counts_within_weaken (n n' : Z) (m : gmap Z Z) :
  counts_within n m -> n <= n' -> counts_within n' m.
Proof. intros Hm Hn a c E. specialize (Hm _ _ E). lia. Qed.

Lemma counts_within_empty (n : Z) : counts_within n ∅.
Proof. intros a c E. now rewrite lookup_empty in E. Qed.

(** ** The loop over the logs *)

Lemma count_log_skipped (contractAbi : ABI) (metric : gmap Z Z) (vLog : Log) :
  well_formed vLog = false -> count_log contractAbi metric vLog = (metric, []).
Proof.
  unfold well_formed, count_log. intros H.
  destruct (length (Topics vLog) =? 3)%nat, (length (Data vLog) =? 0)%nat;
    simpl in *; try discriminate; reflexivity.
Qed.

Lemma count_log_well_formed (contractAbi : ABI) (metric : gmap Z Z) (vLog : Log) :
  well_formed vLog = true ->
  count_log contractAbi metric vLog
  = match Unpack contractAbi "Transfer" (Data vLog) with
    | (_, Some err) => (metric, [Println_unpack_error err])
    | (_, None) =>
        (map_incr (HexToAddress_Hex (nth 2 (Topics vLog) 0))
           (map_incr (HexToAddress_Hex (nth 1 (Topics vLog) 0)) metric), [])
    end.
Proof.
  unfold well_formed, count_log, UnpackIntoInterface. intros H.
  destruct (length (Topics vLog) =? 3)%nat, (length (Data vLog) =? 0)%nat;
    simpl in *; try discriminate.
  destruct (Unpack contractAbi "Transfer" (Data vLog)) as [v [err|]]; reflexivity.
Qed.

Lemma count_logs_cons (contractAbi : ABI) (metric : gmap Z Z) vLog logs :
  count_logs contractAbi metric (vLog :: logs)
  = (fst (count_logs contractAbi (fst (count_log contractAbi metric vLog)) logs),
     snd (count_log contractAbi metric vLog)
     ++ snd (count_logs contractAbi (fst (count_log contractAbi metric vLog)) logs)).
Proof.
  exact (W_bind_eq (count_log contractAbi metric vLog)
                   (fun metric' => count_logs contractAbi metric' logs)).
Qed.

Lemma count_logs_app (contractAbi : ABI) (metric : gmap Z Z) logs1 logs2 :
  count_logs contractAbi metric (logs1 ++ logs2)
  = (fst (count_logs contractAbi (fst (count_logs contractAbi metric logs1)) logs2),
     snd (count_logs contractAbi metric logs1)
     ++ snd (count_logs contractAbi (fst (count_logs contractAbi metric logs1)) logs2)).
Proof.
  revert metric. induction logs1 as [|v logs1 IH]; intros metric.
  - simpl. now destruct (count_logs contractAbi metric logs2).
  - rewrite <- app_comm_cons, !count_logs_cons, IH. simpl.
    now rewrite app_assoc.
Qed.

Lemma count_log_within (contractAbi : ABI) (n : Z) (metric : gmap Z Z) vLog :
  counts_within n metric -> 0 <= n -> n + 2 <= max_int ->
  counts_within (n + 2) (fst (count_log contractAbi metric vLog)).
Proof.
  intros Hm Hn Hmax. destruct (well_formed vLog) eqn:Hwf.
  - rewrite count_log_well_formed by exact Hwf.
    destruct (Unpack contractAbi "Transfer" (Data vLog)) as [v [err|]]; simpl.
    + apply (counts_within_weaken n); [exact Hm | lia].
    + replace (n + 2) with (n + 1 + 1) by lia.
      apply counts_within_incr; [apply counts_within_incr|]; auto; lia.
  - rewrite count_log_skipped by exact Hwf. simpl.
    apply (counts_within_weaken n); [exact Hm | lia].
Qed.

Lemma count_logs_within (contractAbi : ABI) (logs : list Log) :
  forall (n : Z) (metric : gmap Z Z),
    counts_within n metric -> 0 <= n ->
    n + 2 * Z.of_nat (length logs) <= max_int ->
    counts_within (n + 2 * Z.of_nat (length logs))
                  (fst (count_logs contractAbi metric logs)).
Proof.
  induction logs as [|v logs IH]; intros n metric Hm Hn Hmax.
  - simpl. apply (counts_within_weaken n); [exact Hm | lia].
  - rewrite count_logs_cons. simpl fst.
    replace (n + 2 * Z.of_nat (length (v :: logs)))
      with (n + 2 + 2 * Z.of_nat (length logs))
      by (simpl length; lia).
    simpl length in Hmax.
    apply IH; [apply count_log_within; auto; lia | lia | lia].
Qed.

(** ** Ranking: the zero address, the empty map, the order *)

(** C1. Whatever the aggregation map holds, and in whatever order it is
    iterated, no entry of the sequence returned by [SortAddressesByCount]
    carries the zero address; a count stored under the zero key changes
    nothing to that. *)
Theorem zero_address_never_ranked (choices : list nat) (logsMap : gmap Z Z) :
  Forall (fun x => Address x <> zero_Address)
         (fst (SortAddressesByCount choices logsMap)).
Proof.
  apply Forall_forall. intros x Hx.
  apply elem_of_SortAddressesByCount in Hx. tauto.
Qed.

(** A map in which the zero address has the largest count. *)
Example zero_address_with_count :
  SortAddressesByCount [] {[zero_Address := 7; addr_A := 1; addr_B := 3]}
  = ([mkMetric addr_B 3; mkMetric addr_A 1], None).
Proof. vm_compute. reflexivity. Qed.

(** C2, as the specification words it, fails: the map built from one
    transfer from the zero address to itself has the zero address as its
    only key, and the ranking step returns an empty sequence and no
    error. *)
Lemma zero_only_map_is_no_error :
  fst (count_logs example_ABI ∅ [transfer_log 0 0 word32]) = {[zero_Address := 2]}
  /\ no_nonzero_address {[zero_Address := 2]}
  /\ SortAddressesByCount [] {[zero_Address := 2]} = ([], None).
Proof.
  split; [|split].
  - vm_compute. reflexivity.
  - intros k Hk. apply lookup_singleton_ne. congruence.
  - vm_compute. reflexivity.
Qed.

(** C2, amended. The ranking step reports its error exactly for the empty
    map.  For a map that is not empty it returns a sequence and no error,
    and that sequence is empty when the zero address is the only key. *)
Theorem ranking_error_iff_empty_map (choices : list nat) (logsMap : gmap Z Z) :
  (logsMap = ∅ ->
   SortAddressesByCount choices logsMap
   = ([], Some "no logs in map to sort"%string))
  /\ (logsMap <> ∅ -> snd (SortAddressesByCount choices logsMap) = None)
  /\ (logsMap <> ∅ -> no_nonzero_address logsMap ->
      SortAddressesByCount choices logsMap = ([], None)).
Proof.
  split; [|split].
  - intros ->. apply SortAddressesByCount_empty.
  - intros Hne. now rewrite SortAddressesByCount_nonempty.
  - intros Hne Hz.
    assert (Hnil : fst (SortAddressesByCount choices logsMap) = []).
    { destruct (fst (SortAddressesByCount choices logsMap)) as [|x r] eqn:E;
        [reflexivity|].
      assert (Hx : x ∈ fst (SortAddressesByCount choices logsMap))
        by (rewrite E; left).
      apply elem_of_SortAddressesByCount in Hx as [Hnz Hl].
      rewrite (Hz _ Hnz) in Hl. discriminate. }
    rewrite SortAddressesByCount_nonempty in * by exact Hne.
    simpl in Hnil. now rewrite Hnil.
Qed.

Lemma ranking_error_iff_empty_map_witness :
  SortAddressesByCount [1%nat] ∅ = ([], Some "no logs in map to sort"%string)
  /\ snd (SortAddressesByCount [1%nat] {[addr_A := 1]}) = None
  /\ SortAddressesByCount [1%nat] {[zero_Address := 2]} = ([], None).
Proof.
  split; [|split].
  - apply (proj1 (ranking_error_iff_empty_map [1%nat] ∅)). reflexivity.
  - apply (proj1 (proj2 (ranking_error_iff_empty_map [1%nat] {[addr_A := 1]}))).
    apply insert_non_empty.
  - apply (proj2 (proj2 (ranking_error_iff_empty_map [1%nat] {[zero_Address := 2]}))).
    + apply insert_non_empty.
    + intros k Hk. apply lookup_singleton_ne. congruence.
Defined.

(** C3. For every map that is not empty, [SortAddressesByCount] returns a
    sequence, and along it the count at each index is at least the count
    at the next index. *)
Theorem ranked_sequence_descending (choices : list nat) (logsMap : gmap Z Z) :
  logsMap <> ∅ ->
  snd (SortAddressesByCount choices logsMap) = None
  /\ forall (i : nat) (x y : Metric),
       fst (SortAddressesByCount choices logsMap) !! i = Some x ->
       fst (SortAddressesByCount choices logsMap) !! S i = Some y ->
       Count x >= Count y.
Proof.
  intros Hne. split.
  - now rewrite SortAddressesByCount_nonempty.
  - apply SortAddressesByCount_descending.
Qed.

Lemma ranked_sequence_descending_witness :
  snd (SortAddressesByCount [2%nat] {[addr_A := 1; addr_B := 3; 5 := 2]}) = None
  /\ Count (mkMetric addr_B 3) >= Count (mkMetric 5 2).
Proof.
  assert (Hne : ({[addr_A := 1; addr_B := 3; 5 := 2]} : gmap Z Z) <> ∅)
    by apply insert_non_empty.
  destruct (ranked_sequence_descending [2%nat] _ Hne) as [Herr Hdesc].
  split; [exact Herr|].
  apply (Hdesc 0%nat); vm_compute; reflexivity.
Defined.

(** ** Counting *)

Lemma malformed_iff (vLog : Log) : malformed vLog <-> well_formed vLog = false.
Proof.
  unfold malformed, well_formed.
  destruct (Nat.eqb_spec (length (Topics vLog)) 3) as [E|E];
    destruct (Data vLog) as [|b d]; simpl; split; intros H;
    try reflexivity; try discriminate; auto.
  destruct H as [H|H]; [contradiction | discriminate].
Qed.

Lemma well_formed_topics (sig from to : common_Hash) (data : list byte) :
  data <> [] -> well_formed (mkLog [sig; from; to] data) = true.
Proof. intros H. destruct data; [contradiction | reflexivity]. Qed.

Lemma map_incr_fresh (k : common_Address) (m : gmap Z Z) :
  m !! k = None -> map_incr k m = <[k := 1]> m.
Proof. intros E. unfold map_incr, map_get. now rewrite E. Qed.

Lemma map_incr_present (k : common_Address) (m : gmap Z Z) (c : Z) :
  m !! k = Some c -> min_int <= c + 1 <= max_int ->
  map_incr k m = <[k := c + 1]> m.
Proof.
  intros E Hc. unfold map_incr, map_get. rewrite E. simpl.
  now rewrite wrap_int_small.
Qed.

Lemma count_logs_filter (contractAbi : ABI) (logs : list Log) :
  forall metric : gmap Z Z,
    count_logs contractAbi metric logs
    = count_logs contractAbi metric (List.filter well_formed logs).
Proof.
  induction logs as [|v logs IH]; intros metric; [reflexivity|].
  simpl List.filter. destruct (well_formed v) eqn:Hwf.
  - rewrite !count_logs_cons. now rewrite IH.
  - rewrite count_logs_cons, count_log_skipped by exact Hwf. simpl.
    rewrite IH. now destruct (count_logs _ _ _).
Qed.

Lemma three_transfers_map (A B : common_Address) :
  A <> B ->
  map_incr A (map_incr A (map_incr A (map_incr B (map_incr B (map_incr A ∅)))))
  = {[A := 4; B := 2]}.
Proof.
  intros HAB.
  rewrite (map_incr_fresh A ∅) by solve_lookup.
  rewrite (map_incr_fresh B (<[_:=_]> _)) by solve_lookup.
  rewrite (map_incr_present B (<[_:=_]> _) 1); [|solve_lookup|solve_int_range].
  rewrite (map_incr_present A (<[_:=_]> _) 1); [|solve_lookup|solve_int_range].
  rewrite (map_incr_present A (<[_:=_]> _) (1 + 1));
    [|solve_lookup|solve_int_range].
  rewrite (map_incr_present A (<[_:=_]> _) (1 + 1 + 1));
    [|solve_lookup|solve_int_range].
  apply map_eq. intros k.
  destruct (decide (k = A)) as [->|HkA].
  { rewrite !lookup_insert_eq. reflexivity. }
  rewrite !(lookup_insert_ne _ A) by congruence.
  destruct (decide (k = B)) as [->|HkB].
  { rewrite lookup_insert_eq, lookup_singleton_eq. reflexivity. }
  rewrite !(lookup_insert_ne _ B) by congruence.
  rewrite !(lookup_insert_ne _ A) by congruence.
  rewrite lookup_singleton_ne by congruence. reflexivity.
Qed.

Lemma two_counts_ranking (choices : list nat) (A B : common_Address) :
  A <> B -> A <> zero_Address -> B <> zero_Address ->
  SortAddressesByCount choices {[A := 4; B := 2]}
  = ([mkMetric A 4; mkMetric B 2], None).
Proof.
  intros HAB HA HB.
  assert (Hne : ({[A := 4; B := 2]} : gmap Z Z) <> ∅) by apply insert_non_empty.
  pose proof (SortAddressesByCount_Permutation choices {[A := 4; B := 2]}) as Hp.
  pose proof (SortAddressesByCount_Sorted choices {[A := 4; B := 2]}) as Hs.
  rewrite SortAddressesByCount_nonempty in * by exact Hne. simpl in Hp, Hs.
  f_equal.
  assert (Hl : kept_entries (map_to_list ({[A := 4; B := 2]} : gmap Z Z))
               ≡ₚ [mkMetric A 4; mkMetric B 2]).
  { rewrite (kept_entries_Permutation _ [(A, 4); (B, 2)]).
    - unfold kept_entries. rewrite !filter_cons, filter_nil. simpl.
      destruct (decide (A <> zero_Address)); [|contradiction].
      destruct (decide (B <> zero_Address)); [|contradiction].
      reflexivity.
    - rewrite map_to_list_insert by (now simplify_map_eq).
      now rewrite map_to_list_singleton. }
  rewrite Hl in Hp. symmetry in Hp.
  apply Permutation_length_2_inv in Hp as [Hp|Hp]; [exact Hp|].
  rewrite Hp in Hs. inversion_clear Hs as [|? ? _ Hhd].
  inversion_clear Hhd as [|? ? Hle]. unfold flip, count_le in Hle.
  simpl in Hle. lia.
Qed.

(** C4. A log that passes both tests adds one to the count of its sender
    and one to the count of its receiver, hence two when they are the same
    address, and leaves every other count alone (as long as no count
    leaves the range of [int]).  On the three transfers A to B, B to A and
    A to A, with A and B distinct and non-zero, the counts are A = 4 and
    B = 2 and the ranked sequence is A with 4, then B with 2, in every
    iteration order. *)
Theorem transfer_counts_sender_and_receiver :
  (forall (contractAbi : ABI) (metric : gmap Z Z) (vLog : Log)
          (sig from to : common_Hash) (value : Z),
      Topics vLog = [sig; from; to] ->
      Data vLog <> [] ->
      Unpack contractAbi "Transfer" (Data vLog) = (value, None) ->
      min_int <= map_get metric (HexToAddress_Hex from) <= max_int - 2 ->
      min_int <= map_get metric (HexToAddress_Hex to) <= max_int - 2 ->
      forall a : common_Address,
        map_get (fst (count_log contractAbi metric vLog)) a
        = map_get metric a
          + (if decide (a = HexToAddress_Hex from) then 1 else 0)
          + (if decide (a = HexToAddress_Hex to) then 1 else 0))
  /\ (forall (contractAbi : ABI) (choices : list nat)
             (sig1 sig2 sig3 tA tB : common_Hash) (d1 d2 d3 : list byte),
         let A := HexToAddress_Hex tA in
         let B := HexToAddress_Hex tB in
         let logs := [mkLog [sig1; tA; tB] d1;
                      mkLog [sig2; tB; tA] d2;
                      mkLog [sig3; tA; tA] d3] in
         A <> B -> A <> zero_Address -> B <> zero_Address ->
         d1 <> [] -> d2 <> [] -> d3 <> [] ->
         snd (Unpack contractAbi "Transfer" d1) = None ->
         snd (Unpack contractAbi "Transfer" d2) = None ->
         snd (Unpack contractAbi "Transfer" d3) = None ->
         fst (count_logs contractAbi ∅ logs) = {[A := 4; B := 2]}
         /\ SortAddressesByCount choices (fst (count_logs contractAbi ∅ logs))
            = ([mkMetric A 4; mkMetric B 2], None)).
Proof.
  split.
  - intros contractAbi metric [topics data] sig from to value; simpl.
    intros -> Hdata Hun Hfrom Hto a.
    rewrite count_log_well_formed by (now apply well_formed_topics).
    simpl. rewrite Hun. simpl.
    remember (HexToAddress_Hex from) as F eqn:EF.
    remember (HexToAddress_Hex to) as T eqn:ET. clear EF ET.
    rewrite !map_get_incr.
    pose proof min_int_neg. pose proof max_int_pos.
    repeat case_decide; subst; try congruence;
      rewrite ?wrap_int_small; try lia; rewrite ?wrap_int_small; lia.
  - intros contractAbi choices sig1 sig2 sig3 tA tB d1 d2 d3 A B logs
           HAB HA HB Hd1 Hd2 Hd3 Hu1 Hu2 Hu3.
    assert (Hm : fst (count_logs contractAbi ∅ logs) = {[A := 4; B := 2]}).
    { unfold logs. rewrite !count_logs_cons.
      rewrite !count_log_well_formed by (now apply well_formed_topics).
      simpl. fold A B.
      destruct (Unpack contractAbi "Transfer" d1) as [v1 e1]; simpl in Hu1; subst e1.
      destruct (Unpack contractAbi "Transfer" d2) as [v2 e2]; simpl in Hu2; subst e2.
      destruct (Unpack contractAbi "Transfer" d3) as [v3 e3]; simpl in Hu3; subst e3.
      simpl. now apply three_transfers_map. }
    split; [exact Hm|]. rewrite Hm. now apply two_counts_ranking.
Qed.

Lemma transfer_counts_sender_and_receiver_witness :
  map_get (fst (count_log example_ABI {[addr_A := 1]}
                  (transfer_log addr_A addr_A word32))) addr_A
  = 1 + 1 + 1
  /\ fst (count_logs example_ABI ∅ example_logs) = {[addr_A := 4; addr_B := 2]}
  /\ SortAddressesByCount [1%nat] (fst (count_logs example_ABI ∅ example_logs))
     = ([mkMetric addr_A 4; mkMetric addr_B 2], None).
Proof.
  destruct transfer_counts_sender_and_receiver as [Hstep Hscenario].
  split.
  - rewrite (Hstep example_ABI {[addr_A := 1]}
               (transfer_log addr_A addr_A word32)
               (example_hash transferEventSignature) addr_A addr_A
               (be_uint word32));
      try reflexivity; try discriminate; vm_compute; split; discriminate.
  - apply (Hscenario example_ABI [1%nat]
             (example_hash transferEventSignature)
             (example_hash transferEventSignature)
             (example_hash transferEventSignature)
             addr_A addr_B word32 word32 word32);
      try reflexivity; vm_compute; discriminate.
Defined.

(** C5. Logs with a topic count other than three or with an empty payload
    contribute to no count: the outcome of the loop, map and printed lines
    alike, does not change when such a log is inserted or removed at any
    place, and it equals the outcome on the list from which all of them
    are dropped. *)
Theorem malformed_logs_do_not_count (contractAbi : ABI) (metric : gmap Z Z) :
  (forall (pre post : list Log) (bad : Log),
      malformed bad ->
      count_logs contractAbi metric (pre ++ bad :: post)
      = count_logs contractAbi metric (pre ++ post))
  /\ (forall logs : list Log,
         count_logs contractAbi metric logs
         = count_logs contractAbi metric (List.filter well_formed logs)).
Proof.
  split.
  - intros pre post bad Hbad. apply malformed_iff in Hbad.
    rewrite (count_logs_filter _ (pre ++ bad :: post)).
    rewrite (count_logs_filter _ (pre ++ post)).
    rewrite !List.filter_app. simpl. now rewrite Hbad.
  - intros logs. apply count_logs_filter.
Qed.

Lemma malformed_logs_do_not_count_witness :
  count_logs example_ABI ∅
    (example_logs ++ mkLog [addr_A; addr_B] word32 :: example_logs)
  = count_logs example_ABI ∅ (example_logs ++ example_logs).
Proof.
  apply (proj1 (malformed_logs_do_not_count example_ABI ∅)).
  left. simpl. lia.
Defined.

(** ** Runs of [currentBlock] and [main] *)

Lemma count_log_no_query (contractAbi : ABI) (metric : gmap Z Z) (vLog : Log) :
  queries_issued (snd (count_log contractAbi metric vLog)) = [].
Proof.
  destruct (well_formed vLog) eqn:Hwf.
  - rewrite count_log_well_formed by exact Hwf.
    now destruct (Unpack contractAbi "Transfer" (Data vLog)) as [v [err|]].
  - now rewrite count_log_skipped.
Qed.

Lemma queries_issued_app (t1 t2 : list event) :
  queries_issued (t1 ++ t2) = queries_issued t1 ++ queries_issued t2.
Proof. apply omap_app. Qed.

Lemma count_logs_no_query (contractAbi : ABI) (logs : list Log) :
  forall metric : gmap Z Z,
    queries_issued (snd (count_logs contractAbi metric logs)) = [].
Proof.
  induction logs as [|v logs IH]; intros metric; [reflexivity|].
  rewrite count_logs_cons. simpl snd.
  now rewrite queries_issued_app, count_log_no_query, IH.
Qed.

Lemma SortAddressesByCount_error_nil (choices : list nat) (m : gmap Z Z) :
  snd (SortAddressesByCount choices m) <> None ->
  fst (SortAddressesByCount choices m) = [].
Proof.
  destruct (decide (m = ∅)) as [->|Hne]; [reflexivity|].
  rewrite SortAddressesByCount_nonempty by exact Hne. simpl. congruence.
Qed.

Lemma print_loop_from (metrics : list Metric) (turns i : nat) :
  (i <= length metrics)%nat ->
  print_loop metrics i turns
  = if (length metrics <? i + turns)%nat
    then (Panic_index_out_of_range (length metrics) (length metrics),
          map print_line (drop i metrics))
    else (Returned, map print_line (take turns (drop i metrics))).
Proof.
  revert i. induction turns as [|turns IH]; intros i Hi; cbn [print_loop].
  - destruct (Nat.ltb_spec (length metrics) (i + 0)); [lia|]. reflexivity.
  - destruct (metrics !! i) as [m|] eqn:E.
    + pose proof (lookup_lt_Some _ _ _ E) as Hlt.
      rewrite W_bind_eq. cbn [emit fst snd]. rewrite IH by lia.
      rewrite (drop_S _ _ _ E).
      replace (S i + turns)%nat with (i + S turns)%nat by lia.
      now destruct (length metrics <? i + S turns)%nat.
    + apply lookup_ge_None in E. assert (i = length metrics) as -> by lia.
      destruct (Nat.ltb_spec (length metrics) (length metrics + S turns)); [|lia].
      now rewrite drop_all.
Qed.

Lemma sorted_counts_unique (r1 r2 : list Metric) :
  Sorted (flip count_le) r1 -> Sorted (flip count_le) r2 -> r1 ≡ₚ r2 ->
  map Count r1 = map Count r2.
Proof.
  intros H1 H2 Hp.
  apply (Sorted_unique_strong (flip Z.le)).
  - unfold flip. intros. lia.
  - apply (Sorted_fmap Count (flip count_le)); auto.
  - apply (Sorted_fmap Count (flip count_le)); auto.
  - now apply Permutation_map.
Qed.

Lemma kept_entries_NoDup (l : list (common_Address * Z)) :
  NoDup (map fst l) -> NoDup (map Address (kept_entries l)).
Proof.
  unfold kept_entries. induction l as [|[a c] l IH]; simpl; intros Hnd.
  - constructor.
  - apply NoDup_cons in Hnd as [Hnotin Hnd]. rewrite filter_cons. simpl.
    destruct (decide (a <> zero_Address)); [|auto]. simpl.
    constructor; [|auto].
    intros Hin. apply Hnotin.
    apply list_elem_of_fmap in Hin as (x & -> & Hx).
    apply list_elem_of_fmap in Hx as ([a' c'] & -> & Hx).
    apply list_elem_of_filter in Hx as [_ Hx].
    apply list_elem_of_fmap. now exists (a', c').
Qed.

Lemma SortAddressesByCount_NoDup (choices : list nat) (m : gmap Z Z) :
  NoDup (map Address (fst (SortAddressesByCount choices m))).
Proof.
  rewrite SortAddressesByCount_Permutation.
  apply kept_entries_NoDup, NoDup_fst_map_to_list.
Qed.

(** Counts that are positive in the map are positive in the ranking. *)
Lemma ranked_within (choices : list nat) (m : gmap Z Z) :
  counts_within max_int m ->
  Forall (fun x => 1 <= Count x) (fst (SortAddressesByCount choices m)).
Proof.
  intros Hw. apply Forall_forall. intros x Hx.
  apply elem_of_SortAddressesByCount in Hx as [_ Hx].
  specialize (Hw _ _ Hx). lia.
Qed.

Section ProgramFacts.

Variable Keccak256Hash : string -> common_Hash.
Variable abi_JSON : string -> ABI * option error.
Variable godotenv_Load : option error.
Variable os_Getenv : string -> string.
Variable DialContext : string -> Client * option error.

Local Abbreviation filterQuery' := (filterQuery Keccak256Hash).
Local Abbreviation currentBlock' := (currentBlock Keccak256Hash abi_JSON).
Local Abbreviation main' :=
  (main Keccak256Hash abi_JSON godotenv_Load os_Getenv DialContext).

(** [currentBlock], path by path. *)
Lemma currentBlock_eq (choices : list nat) (client : Client) :
  currentBlock' choices client
  = match HeaderByNumber client with
    | (_, Some err) =>
        (([], Some (Errorf "failed to retrieve the latest block header: " err)),
         [HeaderByNumber_call])
    | (head, None) =>
        match FilterLogs client (filterQuery' head) with
        | (_, Some err) =>
            (([], Some (Errorf "failed to filter logs: " err)),
             [HeaderByNumber_call; FilterLogs_call (filterQuery' head)])
        | (logs, None) =>
            match abi_JSON transferEventABI with
            | (_, Some err) =>
                (([], Some (Errorf "failed in marshall abi contract: " err)),
                 [HeaderByNumber_call; FilterLogs_call (filterQuery' head)])
            | (contractAbi, None) =>
                (SortAddressesByCount choices (fst (count_logs contractAbi ∅ logs)),
                 HeaderByNumber_call :: FilterLogs_call (filterQuery' head)
                 :: snd (count_logs contractAbi ∅ logs))
            end
        end
    end.
Proof.
  unfold currentBlock.
  destruct (HeaderByNumber client) as [head [err|]]; [reflexivity|].
  cbv zeta.
  destruct (FilterLogs client (filterQuery' head)) as [logs [err|]]; [reflexivity|].
  destruct (abi_JSON transferEventABI) as [contractAbi [err|]]; [reflexivity|].
  rewrite !W_bind_eq. cbn [emit W_ret fst snd].
  rewrite app_nil_r. now destruct (SortAddressesByCount _ _).
Qed.

Lemma currentBlock_error_nil (choices : list nat) (client : Client) :
  snd (fst (currentBlock' choices client)) <> None ->
  fst (fst (currentBlock' choices client)) = [].
Proof.
  rewrite currentBlock_eq.
  destruct (HeaderByNumber client) as [head [err|]]; [reflexivity|].
  destruct (FilterLogs client (filterQuery' head)) as [logs [err|]]; [reflexivity|].
  destruct (abi_JSON transferEventABI) as [contractAbi [err|]]; [reflexivity|].
  apply SortAddressesByCount_error_nil.
Qed.

(** Whatever the node answers, [currentBlock] ranks no zero address. *)
Lemma currentBlock_never_ranks_zero (choices : list nat) (client : Client) :
  Forall (fun x => Address x <> zero_Address)
         (fst (fst (currentBlock' choices client))).
Proof.
  rewrite currentBlock_eq.
  destruct (HeaderByNumber client) as [head [err|]]; [constructor|].
  destruct (FilterLogs client (filterQuery' head)) as [logs [err|]]; [constructor|].
  destruct (abi_JSON transferEventABI) as [contractAbi [err|]]; [constructor|].
  apply Forall_forall. intros x Hx.
  apply elem_of_SortAddressesByCount in Hx. tauto.
Qed.

Lemma main_eq (choices : list nat) (client : Client) :
  godotenv_Load = None ->
  DialContext ("https://go.getblock.io/" ++ os_Getenv "ETH_API_KEY") = (client, None) ->
  main' choices
  = (fst (print_loop (fst (fst (currentBlock' choices client))) 0 5),
     snd (currentBlock' choices client)
     ++ match snd (fst (currentBlock' choices client)) with
        | Some err => [Printf_currentBlock_error err]
        | None => []
        end
     ++ snd (print_loop (fst (fst (currentBlock' choices client))) 0 5)).
Proof.
  intros Henv Hdial. unfold main. rewrite Henv. cbv zeta. rewrite Hdial.
  rewrite !W_bind_eq. f_equal. f_equal.
  now destruct (snd (fst (currentBlock' choices client))).
Qed.

(** C6. For every head number the query asks for the logs from block
    [head - 99] to block [head]: a window of one hundred heights that ends
    at the head, the heights above [head - 100] and up to [head].  When
    the head is obtained, this is the one filter query [currentBlock]
    issues. *)
Theorem query_window_is_last_hundred_blocks (head : Z) :
  ethereum.FromBlock (filterQuery' head) = head - 99
  /\ ethereum.ToBlock (filterQuery' head) = head
  /\ ethereum.ToBlock (filterQuery' head)
     - ethereum.FromBlock (filterQuery' head) + 1 = 100
  /\ (forall h : Z,
         ethereum.FromBlock (filterQuery' head) <= h
         <= ethereum.ToBlock (filterQuery' head)
         <-> head - 100 < h <= head)
  /\ (forall (choices : list nat) (client : Client),
         HeaderByNumber client = (head, None) ->
         queries_issued (snd (currentBlock' choices client))
         = [ethereum.mkFilterQuery (head - 99) head
              [[Keccak256Hash transferEventSignature]]]).
Proof.
  split; [reflexivity|]. split; [reflexivity|].
  split; [simpl; lia|]. split; [intros h; simpl; lia|].
  intros choices client Hhead. rewrite currentBlock_eq, Hhead.
  destruct (FilterLogs client (filterQuery' head)) as [logs [err|]]; [reflexivity|].
  destruct (abi_JSON transferEventABI) as [contractAbi [err|]]; [reflexivity|].
  cbn [snd]. change (?a :: ?b :: ?t) with ([a; b] ++ t).
  rewrite queries_issued_app, count_logs_no_query. reflexivity.
Qed.

(** C7. A log that passes the first test and whose payload does not
    decode is reported on standard output and changes no count; the logs
    after it are processed as if it were absent, and [currentBlock]
    returns what it returns without that log. *)
Theorem unpack_failure_skips_log (contractAbi : ABI) (vLog : Log)
    (value : Z) (err : error) :
  well_formed vLog = true ->
  Unpack contractAbi "Transfer" (Data vLog) = (value, Some err) ->
  (forall metric : gmap Z Z,
      count_log contractAbi metric vLog = (metric, [Println_unpack_error err]))
  /\ (forall (metric : gmap Z Z) (pre post : list Log),
         fst (count_logs contractAbi metric (pre ++ vLog :: post))
         = fst (count_logs contractAbi metric (pre ++ post))
         /\ snd (count_logs contractAbi metric (pre ++ vLog :: post))
            = snd (count_logs contractAbi metric pre)
              ++ Println_unpack_error err
              :: snd (count_logs contractAbi
                        (fst (count_logs contractAbi metric pre)) post))
  /\ (forall (choices : list nat) (client client' : Client) (head : Z)
             (pre post : list Log),
         abi_JSON transferEventABI = (contractAbi, None) ->
         HeaderByNumber client = (head, None) ->
         HeaderByNumber client' = (head, None) ->
         FilterLogs client (filterQuery' head) = (pre ++ vLog :: post, None) ->
         FilterLogs client' (filterQuery' head) = (pre ++ post, None) ->
         fst (currentBlock' choices client) = fst (currentBlock' choices client')).
Proof.
  intros Hwf Hun.
  assert (Hstep : forall metric,
             count_log contractAbi metric vLog
             = (metric, [Println_unpack_error err])).
  { intros metric. rewrite count_log_well_formed by exact Hwf. now rewrite Hun. }
  assert (Hloop : forall metric pre post,
             fst (count_logs contractAbi metric (pre ++ vLog :: post))
             = fst (count_logs contractAbi metric (pre ++ post))
             /\ snd (count_logs contractAbi metric (pre ++ vLog :: post))
                = snd (count_logs contractAbi metric pre)
                  ++ Println_unpack_error err
                  :: snd (count_logs contractAbi
                            (fst (count_logs contractAbi metric pre)) post)).
  { intros metric pre post.
    rewrite !count_logs_app, count_logs_cons, Hstep. simpl. auto. }
  split; [exact Hstep|]. split; [exact Hloop|].
  intros choices client client' head pre post Habi Hh Hh' Hl Hl'.
  rewrite !currentBlock_eq, Hh, Hh', Hl, Hl', Habi. simpl.
  now rewrite (proj1 (Hloop ∅ pre post)).
Qed.

(** C8. The print loop reads the ranked result at the indices 0 to 4.  On
    a result with fewer than five entries it prints the entries there are
    and then fails, out of bounds at the index that equals the length;
    on a result with five entries or more it prints the first five and
    returns.  When [currentBlock] returns an error, its result is the
    nil slice, and [main] runs the print loop on it all the same. *)
Theorem print_step_needs_five_entries :
  (forall metrics : list Metric,
      print_loop metrics 0 5
      = if (length metrics <? 5)%nat
        then (Panic_index_out_of_range (length metrics) (length metrics),
              map print_line metrics)
        else (Returned, map print_line (take 5 metrics)))
  /\ (forall (choices : list nat) (client : Client),
         snd (fst (currentBlock' choices client)) <> None ->
         fst (fst (currentBlock' choices client)) = []
         /\ print_loop (fst (fst (currentBlock' choices client))) 0 5
            = (Panic_index_out_of_range 0 0, []))
  /\ (forall (choices : list nat) (client : Client),
         godotenv_Load = None ->
         DialContext ("https://go.getblock.io/" ++ os_Getenv "ETH_API_KEY")
         = (client, None) ->
         fst (main' choices)
         = fst (print_loop (fst (fst (currentBlock' choices client))) 0 5)).
Proof.
  split; [|split].
  - intros metrics. rewrite print_loop_from by lia. reflexivity.
  - intros choices client Herr.
    rewrite (currentBlock_error_nil _ _ Herr). split; reflexivity.
  - intros choices client Henv Hdial. now rewrite (main_eq _ _ Henv Hdial).
Qed.

(** C9. Two runs on the same answers of the node, whatever order each
    takes through the map, print the same lines while decoding, return the
    same error, and rank the same addresses with the same counts: an
    address has a count in one result exactly when it has that count in
    the other, no address occurs twice, and position by position the
    counts agree.  The results themselves can differ, in the order of
    entries with equal counts. *)
Theorem rerun_gives_same_counts :
  (forall (choices1 choices2 : list nat) (client : Client),
      let r1 := currentBlock' choices1 client in
      let r2 := currentBlock' choices2 client in
      snd r1 = snd r2
      /\ snd (fst r1) = snd (fst r2)
      /\ (forall (a : common_Address) (c : Z),
             mkMetric a c ∈ fst (fst r1) <-> mkMetric a c ∈ fst (fst r2))
      /\ NoDup (map Address (fst (fst r1)))
      /\ fst (fst r1) ≡ₚ fst (fst r2)
      /\ map Count (fst (fst r1)) = map Count (fst (fst r2)))
  /\ (exists (logsMap : gmap Z Z) (choices1 choices2 : list nat),
         fst (SortAddressesByCount choices1 logsMap)
         <> fst (SortAddressesByCount choices2 logsMap)).
Proof.
  split.
  - intros choices1 choices2 client r1 r2. subst r1 r2.
    rewrite !currentBlock_eq.
    destruct (HeaderByNumber client) as [head [err|]].
    { repeat split; auto; constructor. }
    destruct (FilterLogs client (filterQuery' head)) as [logs [err|]].
    { repeat split; auto; constructor. }
    destruct (abi_JSON transferEventABI) as [contractAbi [err|]].
    { repeat split; auto; constructor. }
    set (m := fst (count_logs contractAbi ∅ logs)). cbn [fst snd].
    assert (Hp : fst (SortAddressesByCount choices1 m)
                 ≡ₚ fst (SortAddressesByCount choices2 m))
      by (now rewrite !SortAddressesByCount_Permutation).
    split; [reflexivity|]. split.
    { destruct (decide (m = ∅)) as [->|Hne]; [reflexivity|].
      now rewrite !SortAddressesByCount_nonempty. }
    split; [intros a c; now rewrite Hp|].
    split; [apply SortAddressesByCount_NoDup|].
    split; [exact Hp|].
    apply sorted_counts_unique; auto using SortAddressesByCount_Sorted.
  - exists {[addr_A := 1; addr_B := 1]}, [], [1%nat].
    vm_compute. discriminate.
Qed.

(** C10. On the map the loop builds from a slice of logs (a slice in
    memory has far fewer than [2^62] elements, so twice its length is an
    [int]), every entry of the ranked sequence has a count of at least
    one. *)
Theorem ranked_counts_are_positive (contractAbi : ABI) (logs : list Log)
    (choices : list nat) :
  2 * Z.of_nat (length logs) <= max_int ->
  Forall (fun x => 1 <= Count x)
         (fst (SortAddressesByCount choices (fst (count_logs contractAbi ∅ logs)))).
Proof.
  intros Hlen. apply ranked_within.
  apply (counts_within_weaken (0 + 2 * Z.of_nat (length logs))); [|lia].
  apply count_logs_within; [apply counts_within_empty | lia | lia].
Qed.

End ProgramFacts.

(** The same, for what [currentBlock] returns. *)
Lemma currentBlock_counts_are_positive (Keccak256Hash : string -> common_Hash)
    (abi_JSON : string -> ABI * option error) (choices : list nat)
    (client : Client) :
  (forall query, 2 * Z.of_nat (length (fst (FilterLogs client query))) <= max_int) ->
  Forall (fun x => 1 <= Count x)
         (fst (fst (currentBlock Keccak256Hash abi_JSON choices client))).
Proof.
  intros Hlen. rewrite currentBlock_eq.
  destruct (HeaderByNumber client) as [head [err|]]; [constructor|].
  specialize (Hlen (filterQuery Keccak256Hash head)).
  destruct (FilterLogs client (filterQuery Keccak256Hash head)) as [logs [err|]];
    [constructor|].
  destruct (abi_JSON transferEventABI) as [contractAbi [err|]]; [constructor|].
  cbn [fst]. apply ranked_within.
  apply (counts_within_weaken (0 + 2 * Z.of_nat (length logs))); [|simpl in Hlen; lia].
  apply count_logs_within; [apply counts_within_empty | lia | simpl in Hlen; lia].
Qed.

(** ** The theorems at the sample data *)

Lemma query_window_is_last_hundred_blocks_witness :
  queries_issued
    (snd (currentBlock example_hash example_abi_JSON [2%nat]
            (example_client 1000 example_logs)))
  = [ethereum.mkFilterQuery 901 1000 [[example_hash transferEventSignature]]].
Proof.
  apply (proj2 (proj2 (proj2 (proj2
           (query_window_is_last_hundred_blocks
              example_hash example_abi_JSON 1000))))).
  reflexivity.
Defined.

Lemma unpack_failure_skips_log_witness :
  count_log example_ABI {[addr_A := 1]} short_log
  = ({[addr_A := 1]},
     [Println_unpack_error
        "abi: cannot marshal in to go type: length insufficient"%string])
  /\ fst (currentBlock example_hash example_abi_JSON [1%nat]
            (example_client 1000 (example_logs ++ short_log :: example_logs)))
     = fst (currentBlock example_hash example_abi_JSON [1%nat]
              (example_client 1000 (example_logs ++ example_logs))).
Proof.
  assert (Hwf : well_formed short_log = true) by reflexivity.
  assert (Hun : Unpack example_ABI "Transfer" (Data short_log)
                = (0, Some "abi: cannot marshal in to go type: length insufficient"%string))
    by reflexivity.
  destruct (unpack_failure_skips_log example_hash example_abi_JSON
              example_ABI short_log _ _ Hwf Hun) as (Hstep & _ & Hrun).
  split; [apply Hstep|].
  apply (Hrun [1%nat] _ _ 1000 example_logs example_logs); reflexivity.
Defined.

Lemma print_step_needs_five_entries_witness :
  print_loop (fst (fst (currentBlock example_hash example_abi_JSON []
                          unreachable_client))) 0 5
  = (Panic_index_out_of_range 0 0, [])
  /\ fst (main example_hash example_abi_JSON None example_Getenv
            (fun _ => (example_client 1000 example_logs, None)) [])
     = Panic_index_out_of_range 2 2.
Proof.
  destruct (print_step_needs_five_entries example_hash example_abi_JSON None
              example_Getenv (fun _ => (example_client 1000 example_logs, None)))
    as (Hloop & Herr & Hmain).
  split.
  - apply (Herr [] unreachable_client). vm_compute. discriminate.
  - rewrite (Hmain [] (example_client 1000 example_logs)) by reflexivity.
    rewrite Hloop. vm_compute. reflexivity.
Defined.

Lemma ranked_counts_are_positive_witness :
  Forall (fun x => 1 <= Count x)
         (fst (SortAddressesByCount [1%nat]
                 (fst (count_logs example_ABI ∅ example_logs)))).
Proof.
  apply (ranked_counts_are_positive example_ABI example_logs [1%nat]).
  vm_compute. discriminate.
Defined.

(** Five ranked addresses: [main] prints five lines and returns. *)
Example main_prints_top_five :
  fst (main example_hash example_abi_JSON None example_Getenv
         (fun _ => (example_client 1000
                      [transfer_log 1 2 word32; transfer_log 3 4 word32;
                       transfer_log 5 6 word32; transfer_log 1 3 word32], None))
         [])
  = Returned.
Proof. vm_compute. reflexivity. Qed.

(** * Further properties *)

(** ** The loop as a fold over the counted transfers *)

Lemma wrap_int_succ (x : Z) : wrap_int (wrap_int x + 1) = wrap_int (x + 1).
Proof.
  unfold wrap_int.
  replace ((x + 2 ^ (int_bits - 1)) mod 2 ^ int_bits - 2 ^ (int_bits - 1) + 1
           + 2 ^ (int_bits - 1))
    with ((x + 2 ^ (int_bits - 1)) mod 2 ^ int_bits + 1) by lia.
  rewrite Z.add_mod_idemp_l by (vm_compute; discriminate).
  f_equal. f_equal. lia.
Qed.

Lemma count_log_decode (contractAbi : ABI) (metric : gmap Z Z) (vLog : Log) :
  count_log contractAbi metric vLog
  = (match decode_log contractAbi vLog with
     | Some t => map_incr (snd t) (map_incr (fst t) metric)
     | None => metric
     end,
     match decode_failure contractAbi vLog with
     | Some e => [e]
     | None => []
     end).
Proof.
  unfold decode_log, decode_failure. destruct (well_formed vLog) eqn:Hwf.
  - rewrite count_log_well_formed by exact Hwf.
    now destruct (Unpack contractAbi "Transfer" (Data vLog)) as [v [err|]].
  - now rewrite count_log_skipped.
Qed.

Lemma count_logs_decode (contractAbi : ABI) (logs : list Log) :
  forall metric : gmap Z Z,
    count_logs contractAbi metric logs
    = (fold_left (fun m k => map_incr k m)
                 (endpoints (transfers contractAbi logs)) metric,
       omap (decode_failure contractAbi) logs).
Proof.
  induction logs as [|v logs IH]; intros metric; [reflexivity|].
  rewrite count_logs_cons, count_log_decode, IH. cbn [fst snd].
  unfold transfers. cbn [omap list_omap].
  destruct (decode_log contractAbi v) as [[f t]|];
    destruct (decode_failure contractAbi v); reflexivity.
Qed.

Lemma occurrences_nonneg (a : common_Address) (ks : list common_Address) :
  0 <= occurrences a ks.
Proof. unfold occurrences. lia. Qed.

Lemma occurrences_snoc (a k : common_Address) (ks : list common_Address) :
  occurrences a (ks ++ [k])
  = occurrences a ks + (if decide (k = a) then 1 else 0).
Proof.
  unfold occurrences. rewrite filter_app, length_app, filter_cons, filter_nil.
  destruct (decide (k = a)); simpl; lia.
Qed.

Lemma occurrences_le_length (a : common_Address) (ks : list common_Address) :
  occurrences a ks <= Z.of_nat (length ks).
Proof. unfold occurrences. pose proof (length_filter (fun k => k = a) ks). lia. Qed.

Lemma occurrences_pos_elem (a : common_Address) (ks : list common_Address) :
  0 < occurrences a ks <-> a ∈ ks.
Proof.
  unfold occurrences. split.
  - intros H. destruct (filter (fun k => k = a) ks) as [|k l] eqn:E;
      [simpl in H; lia|].
    assert (Hk : k ∈ filter (fun k => k = a) ks) by (rewrite E; left).
    apply list_elem_of_filter in Hk as [-> Hk]. exact Hk.
  - intros H.
    assert (Ha : a ∈ filter (fun k => k = a) ks)
      by (apply list_elem_of_filter; auto).
    destruct (filter (fun k => k = a) ks); [inversion Ha | simpl; lia].
Qed.

(** Incrementing from the empty map: a key is present once it has been
    incremented, and holds the number of its increments, wrapped. *)
Lemma incr_all_lookup (ks : list common_Address) (a : common_Address) :
  fold_left (fun m k => map_incr k m) ks ∅ !! a
  = if occurrences a ks =? 0 then None else Some (wrap_int (occurrences a ks)).
Proof.
  induction ks as [|k ks IH] using rev_ind; [reflexivity|].
  rewrite fold_left_app. cbn [fold_left].
  set (m := fold_left (fun m k => map_incr k m) ks ∅) in *.
  rewrite occurrences_snoc. pose proof (occurrences_nonneg a ks) as Hn.
  unfold map_incr. destruct (decide (k = a)) as [->|Hne].
  - rewrite lookup_insert_eq. unfold map_get. rewrite IH.
    destruct (Z.eqb_spec (occurrences a ks) 0) as [E|E];
      destruct (Z.eqb_spec (occurrences a ks + 1) 0); try lia.
    + now rewrite E.
    + simpl. now rewrite wrap_int_succ.
  - rewrite lookup_insert_ne by exact Hne. rewrite IH.
    now replace (occurrences a ks + 0) with (occurrences a ks) by lia.
Qed.

Lemma occurrences_endpoints (a : common_Address)
    (ts : list (common_Address * common_Address)) :
  occurrences a (endpoints ts) = mentions a ts.
Proof.
  unfold occurrences, mentions, endpoints.
  induction ts as [|[f t] ts IH]; [reflexivity|].
  cbn [flat_map app]. rewrite !filter_cons. cbn [fst snd].
  destruct (decide (f = a)); destruct (decide (t = a)); cbn [length]; lia.
Qed.

Lemma aggregate_lookup (contractAbi : ABI) (logs : list Log) (a : common_Address) :
  fst (count_logs contractAbi ∅ logs) !! a
  = if mentions a (transfers contractAbi logs) =? 0 then None
    else Some (wrap_int (mentions a (transfers contractAbi logs))).
Proof.
  rewrite count_logs_decode. cbn [fst].
  now rewrite incr_all_lookup, occurrences_endpoints.
Qed.

Lemma mentions_bounds (a : common_Address)
    (ts : list (common_Address * common_Address)) :
  0 <= mentions a ts <= 2 * Z.of_nat (length ts).
Proof.
  unfold mentions.
  pose proof (length_filter (fun t : Z * Z => fst t = a) ts).
  pose proof (length_filter (fun t : Z * Z => snd t = a) ts). lia.
Qed.

Lemma transfers_length (contractAbi : ABI) (logs : list Log) :
  (length (transfers contractAbi logs) <= length logs)%nat.
Proof.
  unfold transfers. induction logs as [|v logs IH]; [reflexivity|].
  cbn [omap list_omap]. destruct (decode_log contractAbi v); simpl; lia.
Qed.

Lemma mentions_Permutation (a : common_Address)
    (ts ts' : list (common_Address * common_Address)) :
  ts ≡ₚ ts' -> mentions a ts = mentions a ts'.
Proof. intros Hp. unfold mentions. now rewrite Hp. Qed.

Lemma mentions_app (a : common_Address)
    (ts ts' : list (common_Address * common_Address)) :
  mentions a (ts ++ ts') = mentions a ts + mentions a ts'.
Proof. unfold mentions. rewrite !filter_app, !length_app. lia. Qed.

Lemma transfers_app (contractAbi : ABI) (logs logs' : list Log) :
  transfers contractAbi (logs ++ logs')
  = transfers contractAbi logs ++ transfers contractAbi logs'.
Proof. apply omap_app. Qed.

Lemma endpoints_length (ts : list (common_Address * common_Address)) :
  length (endpoints ts) = (2 * length ts)%nat.
Proof. induction ts as [|t ts IH]; simpl; lia. Qed.

Lemma total_count_insert_fresh (k : common_Address) (c : Z) (m : gmap Z Z) :
  m !! k = None -> total_count (<[k := c]> m) = c + total_count m.
Proof.
  intros E. unfold total_count.
  rewrite map_fold_insert_L; [reflexivity | intros; lia | exact E].
Qed.

Lemma total_count_insert_present (k : common_Address) (c c' : Z) (m : gmap Z Z) :
  m !! k = Some c -> total_count (<[k := c']> m) = total_count m - c + c'.
Proof.
  intros E. rewrite <- insert_delete_eq.
  rewrite total_count_insert_fresh by apply lookup_delete_eq.
  unfold total_count at 2.
  rewrite (map_fold_delete_L _ _ k c m); [|intros; lia|exact E].
  fold (total_count (delete k m)). lia.
Qed.

Lemma incr_all_total (ks : list common_Address) :
  Z.of_nat (length ks) <= max_int ->
  total_count (fold_left (fun m k => map_incr k m) ks ∅) = Z.of_nat (length ks).
Proof.
  induction ks as [|k ks IH] using rev_ind; [reflexivity|].
  rewrite length_app, fold_left_app. cbn [fold_left length]. intros Hlen.
  set (m := fold_left (fun m k => map_incr k m) ks ∅) in *.
  pose proof (incr_all_lookup ks k) as Hk. fold m in Hk.
  pose proof (occurrences_nonneg k ks). pose proof (occurrences_le_length k ks).
  pose proof min_int_neg.
  unfold map_incr, map_get.
  destruct (Z.eqb_spec (occurrences k ks) 0) as [E|E]; rewrite Hk; simpl.
  - rewrite total_count_insert_fresh by exact Hk.
    rewrite IH by lia. rewrite wrap_int_small; lia.
  - rewrite (total_count_insert_present _ _ _ _ Hk), IH by lia.
    rewrite !wrap_int_small; lia.
Qed.

Lemma incr_all_size (ks : list common_Address) :
  (size (fold_left (fun m k => map_incr k m) ks ∅) <= length ks)%nat.
Proof.
  induction ks as [|k ks IH] using rev_ind; [reflexivity|].
  rewrite length_app, fold_left_app. cbn [fold_left length].
  unfold map_incr at 1. rewrite map_size_insert.
  destruct (_ !! k); simpl; lia.
Qed.

Lemma filter_all {A : Type} (P : A -> Prop) `{forall x, Decision (P x)}
    (l : list A) :
  Forall P l -> filter P l = l.
Proof.
  induction 1 as [|x l Hx _ IH]; [reflexivity|].
  rewrite filter_cons. destruct (decide (P x)); [|contradiction]. now rewrite IH.
Qed.

Lemma kept_entries_length (m : gmap Z Z) :
  length (kept_entries (map_to_list m)) = size (delete zero_Address m).
Proof.
  assert (Hall : filter (fun p : Z * Z => fst p <> zero_Address)
                        (map_to_list (delete zero_Address m))
                 = map_to_list (delete zero_Address m)).
  { apply filter_all, Forall_forall. intros [a c] Hin. simpl.
    apply elem_of_map_to_list in Hin. intros ->.
    now rewrite lookup_delete_eq in Hin. }
  unfold kept_entries. rewrite length_map, <- length_map_to_list, <- Hall.
  destruct (m !! zero_Address) as [c|] eqn:E.
  - rewrite <- (map_to_list_delete m zero_Address c E).
    rewrite filter_cons. simpl.
    destruct (decide (zero_Address <> zero_Address)); [contradiction|reflexivity].
  - now rewrite (delete_id m zero_Address E).
Qed.

(** ** What the counts are *)

(** X1. After the loop, started on the empty map, the count read for an
    address is the number of counted transfers that have it as sender plus
    the number that have it as receiver, wrapped to an [int]; the address
    is a key exactly when that number is not zero; and while twice the
    number of counted transfers is an [int] the count is that number
    itself. *)
Theorem counts_are_mentions (contractAbi : ABI) (logs : list Log)
    (a : common_Address) :
  map_get (fst (count_logs contractAbi ∅ logs)) a
  = wrap_int (mentions a (transfers contractAbi logs))
  /\ (fst (count_logs contractAbi ∅ logs) !! a = None
      <-> mentions a (transfers contractAbi logs) = 0)
  /\ (2 * Z.of_nat (length (transfers contractAbi logs)) <= max_int ->
      map_get (fst (count_logs contractAbi ∅ logs)) a
      = mentions a (transfers contractAbi logs)).
Proof.
  pose proof (aggregate_lookup contractAbi logs a) as Hl.
  pose proof (mentions_bounds a (transfers contractAbi logs)) as Hb.
  assert (Hget : map_get (fst (count_logs contractAbi ∅ logs)) a
                 = wrap_int (mentions a (transfers contractAbi logs))).
  { unfold map_get. rewrite Hl.
    destruct (Z.eqb_spec (mentions a (transfers contractAbi logs)) 0) as [E|E];
      [now rewrite E | reflexivity]. }
  split; [exact Hget|]. split.
  - rewrite Hl.
    destruct (Z.eqb_spec (mentions a (transfers contractAbi logs)) 0);
      split; intros; congruence.
  - intros Hlen. rewrite Hget. pose proof min_int_neg.
    apply wrap_int_small. lia.
Qed.

Lemma counts_are_mentions_witness :
  map_get (fst (count_logs example_ABI ∅ (short_log :: example_logs))) addr_A
  = mentions addr_A (transfers example_ABI (short_log :: example_logs)).
Proof.
  apply (proj2 (proj2 (counts_are_mentions example_ABI
                         (short_log :: example_logs) addr_A))).
  vm_compute. discriminate.
Defined.

(** X2. The map the loop builds does not depend on the order in which
    the node returns the logs. *)
Theorem counts_ignore_log_order (contractAbi : ABI) (logs logs' : list Log) :
  logs ≡ₚ logs' ->
  fst (count_logs contractAbi ∅ logs) = fst (count_logs contractAbi ∅ logs').
Proof.
  intros Hp. apply map_eq. intros a. rewrite !aggregate_lookup.
  assert (Ht : transfers contractAbi logs ≡ₚ transfers contractAbi logs')
    by (unfold transfers; now rewrite Hp).
  now rewrite (mentions_Permutation a _ _ Ht).
Qed.

Lemma counts_ignore_log_order_witness :
  fst (count_logs example_ABI ∅ (short_log :: example_logs))
  = fst (count_logs example_ABI ∅ (example_logs ++ [short_log])).
Proof.
  apply counts_ignore_log_order.
  apply (Permutation_cons_append example_logs short_log).
Defined.

(** X3. Processing further logs never removes a key from the map, and
    while twice the number of counted transfers is an [int] it never
    lowers a count. *)
Theorem counts_only_grow (contractAbi : ABI) (logs more : list Log)
    (a : common_Address) :
  (is_Some (fst (count_logs contractAbi ∅ logs) !! a) ->
   is_Some (fst (count_logs contractAbi ∅ (logs ++ more)) !! a))
  /\ (2 * Z.of_nat (length (transfers contractAbi (logs ++ more))) <= max_int ->
      map_get (fst (count_logs contractAbi ∅ logs)) a
      <= map_get (fst (count_logs contractAbi ∅ (logs ++ more)) ) a).
Proof.
  pose proof (mentions_bounds a (transfers contractAbi logs)) as Hb.
  pose proof (mentions_bounds a (transfers contractAbi more)) as Hb'.
  pose proof (mentions_bounds a (transfers contractAbi (logs ++ more))) as Hb''.
  pose proof min_int_neg.
  split.
  - rewrite !aggregate_lookup, transfers_app, mentions_app.
    destruct (Z.eqb_spec (mentions a (transfers contractAbi logs)) 0) as [E|E].
    + intros [x Hx]. discriminate.
    + intros _.
      destruct (Z.eqb_spec (mentions a (transfers contractAbi logs)
                            + mentions a (transfers contractAbi more)) 0);
        [lia | eauto].
  - intros Hlen. unfold map_get. rewrite !aggregate_lookup.
    rewrite transfers_app, length_app in Hlen.
    rewrite transfers_app, mentions_app in *.
    destruct (Z.eqb_spec (mentions a (transfers contractAbi logs)) 0) as [E|E];
      destruct (Z.eqb_spec (mentions a (transfers contractAbi logs)
                            + mentions a (transfers contractAbi more)) 0);
      simpl; rewrite ?wrap_int_small; lia.
Qed.

Lemma counts_only_grow_witness :
  is_Some (fst (count_logs example_ABI ∅ (example_logs ++ example_logs)) !! addr_B)
  /\ map_get (fst (count_logs example_ABI ∅ example_logs)) addr_B
     <= map_get (fst (count_logs example_ABI ∅ (example_logs ++ example_logs))) addr_B.
Proof.
  destruct (counts_only_grow example_ABI example_logs example_logs addr_B)
    as [Hkey Hcount].
  split.
  - apply Hkey. exists 2. vm_compute. reflexivity.
  - apply Hcount. vm_compute. discriminate.
Defined.

(** X4. While twice the number of counted transfers is an [int], the
    counts in the map, the zero address included, add up to twice the
    number of counted transfers. *)
Theorem counts_sum_to_twice_transfers (contractAbi : ABI) (logs : list Log) :
  2 * Z.of_nat (length (transfers contractAbi logs)) <= max_int ->
  total_count (fst (count_logs contractAbi ∅ logs))
  = 2 * Z.of_nat (length (transfers contractAbi logs)).
Proof.
  intros Hlen. rewrite count_logs_decode. cbn [fst].
  rewrite incr_all_total; rewrite endpoints_length; lia.
Qed.

Lemma counts_sum_to_twice_transfers_witness :
  total_count (fst (count_logs example_ABI ∅ (short_log :: example_logs)))
  = 2 * Z.of_nat (length (transfers example_ABI (short_log :: example_logs))).
Proof.
  apply counts_sum_to_twice_transfers. vm_compute. discriminate.
Defined.

(** X5. The loop prints one line for each log that has three topics and a
    payload and fails to decode, in log order, and nothing else.  Every
    log is either skipped in silence, reported on such a line, or counted
    as a transfer. *)
Theorem every_log_skipped_reported_or_counted (contractAbi : ABI)
    (metric : gmap Z Z) (logs : list Log) :
  snd (count_logs contractAbi metric logs) = omap (decode_failure contractAbi) logs
  /\ length logs
     = (length (List.filter (fun vLog => negb (well_formed vLog)) logs)
        + length (snd (count_logs contractAbi metric logs))
        + length (transfers contractAbi logs))%nat.
Proof.
  rewrite count_logs_decode. cbn [snd]. split; [reflexivity|].
  unfold transfers. induction logs as [|v logs IH]; [reflexivity|].
  cbn [omap list_omap List.filter length].
  unfold decode_failure at 1, decode_log at 1.
  destruct (well_formed v); cbn [negb].
  - destruct (snd (Unpack contractAbi "Transfer" (Data v)));
      cbn [length app]; rewrite ?length_app; cbn [length]; lia.
  - cbn [length]. lia.
Qed.

(** X6. The ranking has at most two entries for each counted transfer. *)
Theorem ranking_at_most_two_per_transfer (contractAbi : ABI) (logs : list Log)
    (choices : list nat) :
  (length (fst (SortAddressesByCount choices (fst (count_logs contractAbi ∅ logs))))
   <= 2 * length (transfers contractAbi logs))%nat.
Proof.
  rewrite SortAddressesByCount_Permutation, kept_entries_length.
  rewrite map_size_delete.
  rewrite count_logs_decode. cbn [fst].
  pose proof (incr_all_size (endpoints (transfers contractAbi logs))) as Hs.
  rewrite endpoints_length in Hs.
  destruct (_ !! zero_Address); simpl; lia.
Qed.

(** ** What the ranking is *)

Lemma count_le_flip_transitive : Transitive (flip count_le).
Proof. intros x y z. unfold flip, count_le. lia. Qed.

Lemma StronglySorted_lookup_lt {A : Type} (R : relation A) (l : list A)
    (i j : nat) (x y : A) :
  StronglySorted R l -> (i < j)%nat ->
  l !! i = Some x -> l !! j = Some y -> R x y.
Proof.
  intros Hs. revert i j. induction Hs as [|a l Hs IH Hall]; intros i j Hij Hx Hy.
  - discriminate.
  - destruct j as [|j]; [lia|]. destruct i as [|i]; simpl in *.
    + injection Hx as ->. rewrite Forall_forall in Hall.
      apply Hall. eapply list_elem_of_lookup_2. exact Hy.
    + apply (IH i j); auto. lia.
Qed.

(** X7. The sequence [SortAddressesByCount] returns lists every non-zero
    key of the map with the count stored for it, and nothing else; each
    address once; so its length is the number of keys other than the zero
    address. *)
Theorem ranking_lists_each_nonzero_key_once (choices : list nat)
    (logsMap : gmap Z Z) :
  (forall x : Metric,
      x ∈ fst (SortAddressesByCount choices logsMap)
      <-> Address x <> zero_Address /\ logsMap !! Address x = Some (Count x))
  /\ NoDup (map Address (fst (SortAddressesByCount choices logsMap)))
  /\ length (fst (SortAddressesByCount choices logsMap))
     = size (delete zero_Address logsMap).
Proof.
  split; [intros x; apply elem_of_SortAddressesByCount|].
  split; [apply SortAddressesByCount_NoDup|].
  rewrite SortAddressesByCount_Permutation. apply kept_entries_length.
Qed.

(** X8. For a map that is not empty, the sequences [SortAddressesByCount]
    can return, over all orders in which the map may be iterated, are
    exactly the arrangements of its non-zero entries by descending
    count. *)
Theorem ranking_outcomes (logsMap : gmap Z Z) (r : list Metric) :
  logsMap <> ∅ ->
  (exists choices, SortAddressesByCount choices logsMap = (r, None))
  <-> r ≡ₚ kept_entries (map_to_list logsMap) /\ Sorted (flip count_le) r.
Proof.
  intros Hne. split.
  - intros [choices Hr].
    pose proof (SortAddressesByCount_sound choices logsMap) as Hs.
    rewrite Hr in Hs. exact Hs.
  - intros [Hp Hs]. now apply SortAddressesByCount_any_tie_order.
Qed.

Lemma ranking_outcomes_witness :
  (exists choices,
      SortAddressesByCount choices {[addr_A := 1; addr_B := 1; zero_Address := 5]}
      = ([mkMetric addr_A 1; mkMetric addr_B 1], None))
  /\ (exists choices,
         SortAddressesByCount choices {[addr_A := 1; addr_B := 1; zero_Address := 5]}
         = ([mkMetric addr_B 1; mkMetric addr_A 1], None)).
Proof.
  assert (Hne : ({[addr_A := 1; addr_B := 1; zero_Address := 5]} : gmap Z Z) <> ∅)
    by apply insert_non_empty.
  split.
  - apply (proj2 (ranking_outcomes _ [mkMetric addr_A 1; mkMetric addr_B 1] Hne)).
    split; [vm_compute; apply perm_swap | repeat constructor; vm_compute; discriminate].
  - apply (proj2 (ranking_outcomes _ [mkMetric addr_B 1; mkMetric addr_A 1] Hne)).
    split; [vm_compute; reflexivity | repeat constructor; vm_compute; discriminate].
Defined.

(** X9. In the returned sequence an earlier entry never has a smaller
    count than a later one, at any distance; the first entry has the
    largest count. *)
Theorem ranking_descending_at_any_distance (choices : list nat)
    (logsMap : gmap Z Z) (i j : nat) (x y : Metric) :
  (i <= j)%nat ->
  fst (SortAddressesByCount choices logsMap) !! i = Some x ->
  fst (SortAddressesByCount choices logsMap) !! j = Some y ->
  Count x >= Count y.
Proof.
  intros Hij Hx Hy. destruct (decide (i = j)) as [->|Hne].
  - rewrite Hx in Hy. injection Hy as ->. lia.
  - pose proof (SortAddressesByCount_Sorted choices logsMap) as Hs.
    apply (@Sorted_StronglySorted _ _ count_le_flip_transitive) in Hs.
    pose proof (StronglySorted_lookup_lt _ _ i j x y Hs ltac:(lia) Hx Hy) as H.
    unfold flip, count_le in H. lia.
Qed.

Lemma ranking_descending_at_any_distance_witness :
  Count (mkMetric addr_B 3) >= Count (mkMetric addr_A 1).
Proof.
  apply (ranking_descending_at_any_distance [2%nat]
           {[addr_A := 1; addr_B := 3; 5 := 2]} 0 2);
    [lia | vm_compute; reflexivity | vm_compute; reflexivity].
Defined.

(** X10. When no two non-zero addresses have the same count, the result
    does not depend on the order in which the map is iterated. *)
Theorem distinct_counts_fix_ranking (choices1 choices2 : list nat)
    (logsMap : gmap Z Z) :
  (forall (a b : common_Address) (c : Z),
      a <> zero_Address -> b <> zero_Address ->
      logsMap !! a = Some c -> logsMap !! b = Some c -> a = b) ->
  SortAddressesByCount choices1 logsMap = SortAddressesByCount choices2 logsMap.
Proof.
  intros Hdistinct.
  destruct (decide (logsMap = ∅)) as [->|Hne]; [reflexivity|].
  assert (Hfst : fst (SortAddressesByCount choices1 logsMap)
                 = fst (SortAddressesByCount choices2 logsMap)).
  { apply (@Sorted_unique_strong _ (flip count_le) count_le_flip_transitive).
    - intros [a1 c1] [a2 c2] H1 H2 Hle1 Hle2.
      apply elem_of_SortAddressesByCount in H1 as [Hz1 Hl1].
      apply elem_of_SortAddressesByCount in H2 as [Hz2 Hl2].
      unfold flip, count_le in *. simpl in *.
      assert (c1 = c2) as -> by lia.
      now rewrite (Hdistinct a1 a2 c2 Hz1 Hz2 Hl1 Hl2).
    - apply SortAddressesByCount_Sorted.
    - apply SortAddressesByCount_Sorted.
    - now rewrite !SortAddressesByCount_Permutation. }
  rewrite !SortAddressesByCount_nonempty in * by exact Hne.
  simpl in Hfst. now rewrite Hfst.
Qed.

Lemma distinct_counts_fix_ranking_witness :
  SortAddressesByCount [] {[addr_A := 4; addr_B := 2]}
  = SortAddressesByCount [1%nat] {[addr_A := 4; addr_B := 2]}.
Proof.
  apply distinct_counts_fix_ranking.
  intros a b c Ha Hb Hla Hlb.
  destruct (decide (a = addr_A)) as [->|HaA];
    destruct (decide (b = addr_A)) as [->|HbA]; try reflexivity.
  - rewrite lookup_insert_eq in Hla. rewrite lookup_insert_ne in Hlb by congruence.
    destruct (decide (b = addr_B)) as [->|HbB].
    + rewrite lookup_singleton_eq in Hlb. congruence.
    + rewrite lookup_singleton_ne in Hlb by congruence. discriminate.
  - rewrite lookup_insert_eq in Hlb. rewrite lookup_insert_ne in Hla by congruence.
    destruct (decide (a = addr_B)) as [->|HaB].
    + rewrite lookup_singleton_eq in Hla. congruence.
    + rewrite lookup_singleton_ne in Hla by congruence. discriminate.
  - rewrite lookup_insert_ne in Hla, Hlb by congruence.
    destruct (decide (a = addr_B)) as [->|HaB];
      destruct (decide (b = addr_B)) as [->|HbB]; try reflexivity.
    + rewrite lookup_singleton_ne in Hlb by congruence. discriminate.
    + rewrite lookup_singleton_ne in Hla by congruence. discriminate.
    + rewrite lookup_singleton_ne in Hla by congruence. discriminate.
Defined.

(** ** Who is ranked *)

Lemma aggregate_key_iff (contractAbi : ABI) (logs : list Log) (a : common_Address) :
  is_Some (fst (count_logs contractAbi ∅ logs) !! a)
  <-> a ∈ endpoints (transfers contractAbi logs).
Proof.
  rewrite aggregate_lookup, <- occurrences_pos_elem, occurrences_endpoints.
  pose proof (mentions_bounds a (transfers contractAbi logs)).
  destruct (Z.eqb_spec (mentions a (transfers contractAbi logs)) 0); split.
  - intros [x Hx]. discriminate.
  - lia.
  - lia.
  - eauto.
Qed.

Lemma aggregate_dom (contractAbi : ABI) (logs : list Log) :
  dom (fst (count_logs contractAbi ∅ logs))
  = list_to_set (endpoints (transfers contractAbi logs)).
Proof.
  apply set_eq. intros a.
  now rewrite elem_of_dom, aggregate_key_iff, elem_of_list_to_set.
Qed.

Lemma aggregate_empty_iff (contractAbi : ABI) (logs : list Log) :
  fst (count_logs contractAbi ∅ logs) = ∅ <-> transfers contractAbi logs = [].
Proof.
  split.
  - intros Hm. destruct (transfers contractAbi logs) as [|[f t] ts] eqn:E;
      [reflexivity|].
    assert (Hf : is_Some (fst (count_logs contractAbi ∅ logs) !! f)).
    { apply aggregate_key_iff. rewrite E. simpl. left. }
    rewrite Hm, lookup_empty in Hf. destruct Hf as [x Hx]. discriminate.
  - intros E. rewrite count_logs_decode, E. reflexivity.
Qed.

Lemma endpoints_from_topics (contractAbi : ABI) (logs : list Log)
    (a : common_Address) :
  a ∈ endpoints (transfers contractAbi logs) ->
  exists h : common_Hash, a = HexToAddress_Hex h.
Proof.
  unfold endpoints, transfers. intros Ha.
  apply list_elem_of_In, in_flat_map in Ha as ([f t] & Ht & Ha).
  apply list_elem_of_In, list_elem_of_omap in Ht as (v & _ & Hv).
  unfold decode_log in Hv. destruct (well_formed v); [|discriminate].
  destruct (snd (Unpack contractAbi "Transfer" (Data v))); [discriminate|].
  injection Hv as <- <-. simpl in Ha.
  destruct Ha as [<-|[<-|[]]]; eauto.
Qed.

Lemma HexToAddress_Hex_mod (h : common_Hash) :
  HexToAddress_Hex h = h mod 2 ^ 160.
Proof. unfold HexToAddress_Hex, AddressLength. now rewrite Z.land_ones. Qed.

(** X11. The addresses [SortAddressesByCount] ranks after the loop are the
    non-zero addresses that are sender or receiver of a counted transfer,
    and the length of the ranking is their number. *)
Theorem ranked_addresses_are_participants (contractAbi : ABI)
    (logs : list Log) (choices : list nat) :
  (forall a : common_Address,
      a ∈ map Address
            (fst (SortAddressesByCount choices (fst (count_logs contractAbi ∅ logs))))
      <-> a ∈ participants contractAbi logs)
  /\ length (fst (SortAddressesByCount choices (fst (count_logs contractAbi ∅ logs))))
     = size (participants contractAbi logs).
Proof.
  unfold participants. rewrite <- aggregate_dom.
  set (m := fst (count_logs contractAbi ∅ logs)). split.
  - intros a. rewrite elem_of_difference, elem_of_dom, elem_of_singleton.
    rewrite list_elem_of_fmap. split.
    + intros (x & -> & Hx). apply elem_of_SortAddressesByCount in Hx as [Hz Hl].
      split; [eauto | exact Hz].
    + intros [[c Hc] Hz]. exists (mkMetric a c). split; [reflexivity|].
      apply elem_of_SortAddressesByCount. auto.
  - rewrite SortAddressesByCount_Permutation, kept_entries_length.
    now rewrite <- size_dom, dom_delete_L.
Qed.

(** X12. The sender and the receiver are the low 20 bytes of the second
    and third topic: a topic that holds an address padded with zero bytes
    gives that address, topics that differ above the low 20 bytes give the
    same address, and every key of the map is a 20-byte value. *)
Theorem topic_address_is_low_20_bytes :
  (forall h : common_Hash, 0 <= HexToAddress_Hex h < 2 ^ 160)
  /\ (forall a : common_Address, 0 <= a < 2 ^ 160 -> HexToAddress_Hex a = a)
  /\ (forall h high : Z, HexToAddress_Hex (h + high * 2 ^ 160) = HexToAddress_Hex h)
  /\ (forall (contractAbi : ABI) (logs : list Log) (a : common_Address),
         is_Some (fst (count_logs contractAbi ∅ logs) !! a) -> 0 <= a < 2 ^ 160).
Proof.
  split; [|split; [|split]].
  - intros h. rewrite HexToAddress_Hex_mod. apply Z.mod_pos_bound. reflexivity.
  - intros a Ha. rewrite HexToAddress_Hex_mod. now apply Z.mod_small.
  - intros h high. rewrite !HexToAddress_Hex_mod. apply Z_mod_plus_full.
  - intros contractAbi logs a Ha.
    apply aggregate_key_iff, endpoints_from_topics in Ha as [h ->].
    rewrite HexToAddress_Hex_mod. apply Z.mod_pos_bound. reflexivity.
Qed.

Lemma topic_address_is_low_20_bytes_witness :
  HexToAddress_Hex addr_A = addr_A /\ 0 <= addr_B < 2 ^ 160.
Proof.
  destruct topic_address_is_low_20_bytes as (_ & Hpad & _ & Hkey).
  split.
  - apply Hpad. vm_compute. split; [discriminate | reflexivity].
  - apply (Hkey example_ABI example_logs addr_B).
    exists 2. vm_compute. reflexivity.
Defined.

Section RunFacts.

Variable Keccak256Hash : string -> common_Hash.
Variable abi_JSON : string -> ABI * option error.
Variable godotenv_Load : option error.
Variable os_Getenv : string -> string.
Variable DialContext : string -> Client * option error.

(** X13. [currentBlock] returns without error exactly when the header
    call, the filter query and the parsing of the schema succeed and at
    least one log is counted as a transfer.  When the three succeed and no
    log is counted, it returns the nil slice and the error of the empty
    map. *)
Theorem currentBlock_succeeds_iff (choices : list nat) (client : Client) :
  (snd (fst (currentBlock Keccak256Hash abi_JSON choices client)) = None
   <-> exists (head : Z) (logs : list Log) (contractAbi : ABI),
         HeaderByNumber client = (head, None)
         /\ FilterLogs client (filterQuery Keccak256Hash head) = (logs, None)
         /\ abi_JSON transferEventABI = (contractAbi, None)
         /\ transfers contractAbi logs <> [])
  /\ (forall (head : Z) (logs : list Log) (contractAbi : ABI),
         HeaderByNumber client = (head, None) ->
         FilterLogs client (filterQuery Keccak256Hash head) = (logs, None) ->
         abi_JSON transferEventABI = (contractAbi, None) ->
         transfers contractAbi logs = [] ->
         fst (currentBlock Keccak256Hash abi_JSON choices client)
         = ([], Some "no logs in map to sort"%string)).
Proof.
  rewrite currentBlock_eq. split.
  - destruct (HeaderByNumber client) as [head [err|]] eqn:Hh.
    { split; [discriminate|]. intros (? & ? & ? & [=] & _). }
    destruct (FilterLogs client (filterQuery Keccak256Hash head))
      as [logs [err|]] eqn:Hl.
    { split; [discriminate|].
      intros (? & ? & ? & [= <-] & Hl' & _). rewrite Hl in Hl'. discriminate. }
    destruct (abi_JSON transferEventABI) as [contractAbi [err|]] eqn:Ha.
    { split; [discriminate|]. intros (? & ? & ? & _ & _ & [=] & _). }
    cbn [fst snd]. split.
    + intros Hok. exists head, logs, contractAbi. repeat split; auto.
      intros Hnil. apply aggregate_empty_iff in Hnil.
      rewrite Hnil, SortAddressesByCount_empty in Hok. discriminate.
    + intros (head' & logs' & abi' & [= <-] & Hl' & [= <-] & Hne).
      rewrite Hl in Hl'. injection Hl' as <-.
      rewrite SortAddressesByCount_nonempty; [reflexivity|].
      intros Hm. now apply aggregate_empty_iff in Hm.
  - intros head logs contractAbi -> -> -> Hnil. cbn [fst].
    apply aggregate_empty_iff in Hnil. rewrite Hnil.
    apply SortAddressesByCount_empty.
Qed.

(** X14. How [main] ends and what it leaves behind.  When the environment
    file cannot be loaded or the client cannot be dialled it ends in a
    fatal error without a call to the node and without output.
    Otherwise its events are those of [currentBlock], then the error line
    if [currentBlock] returned an error, then one line for each of the
    first five ranked entries there are; it returns when there are five,
    and fails out of bounds at the index equal to the length when there
    are fewer. *)
Theorem main_outcome (choices : list nat) :
  main Keccak256Hash abi_JSON godotenv_Load os_Getenv DialContext choices
  = match godotenv_Load with
    | Some _ => (Fatal "error loading .env file", [])
    | None =>
        match DialContext ("https://go.getblock.io/" ++ os_Getenv "ETH_API_KEY") with
        | (_, Some _) => (Fatal "error in dialing Ethereum client", [])
        | (client, None) =>
            let r := currentBlock Keccak256Hash abi_JSON choices client in
            ((if (length (fst (fst r)) <? 5)%nat
              then Panic_index_out_of_range (length (fst (fst r)))
                                            (length (fst (fst r)))
              else Returned),
             snd r
             ++ match snd (fst r) with
                | Some err => [Printf_currentBlock_error err]
                | None => []
                end
             ++ map print_line (take 5 (fst (fst r))))
        end
    end.
Proof.
  unfold main. destruct godotenv_Load as [e|]; [reflexivity|].
  cbv zeta.
  destruct (DialContext ("https://go.getblock.io/" ++ os_Getenv "ETH_API_KEY"))
    as [client [e|]]; [reflexivity|].
  rewrite !W_bind_eq, print_loop_from by lia. rewrite drop_0.
  set (r := currentBlock Keccak256Hash abi_JSON choices client).
  change (0 + 5)%nat with 5%nat.
  destruct (Nat.ltb_spec (length (fst (fst r))) 5) as [Hlt|Hge];
    destruct (snd (fst r)); cbn [fst snd emit W_ret];
    rewrite ?take_ge by lia; reflexivity.
Qed.

(** X15. End to end: when the header call, the filter query and the
    parsing of the schema succeed, and twice the number of counted
    transfers is an [int], the entries [currentBlock] returns are the
    participants, each with the number of counted transfers that have it
    as sender plus the number that have it as receiver. *)
Theorem currentBlock_ranks_mentions (choices : list nat) (client : Client)
    (head : Z) (logs : list Log) (contractAbi : ABI) :
  HeaderByNumber client = (head, None) ->
  FilterLogs client (filterQuery Keccak256Hash head) = (logs, None) ->
  abi_JSON transferEventABI = (contractAbi, None) ->
  2 * Z.of_nat (length (transfers contractAbi logs)) <= max_int ->
  forall x : Metric,
    x ∈ fst (fst (currentBlock Keccak256Hash abi_JSON choices client))
    <-> Address x ∈ participants contractAbi logs
        /\ Count x = mentions (Address x) (transfers contractAbi logs).
Proof.
  intros Hh Hl Ha Hlen x. rewrite currentBlock_eq, Hh, Hl, Ha. cbn [fst].
  rewrite elem_of_SortAddressesByCount, aggregate_lookup.
  unfold participants.
  rewrite elem_of_difference, elem_of_list_to_set, elem_of_singleton.
  rewrite <- occurrences_pos_elem, occurrences_endpoints.
  pose proof (mentions_bounds (Address x) (transfers contractAbi logs)) as Hb.
  pose proof min_int_neg.
  destruct (Z.eqb_spec (mentions (Address x) (transfers contractAbi logs)) 0)
    as [E|E].
  - split; [intros [_ [=]] | lia].
  - rewrite wrap_int_small by lia. split.
    + intros [Hz [= Hc]]. repeat split; auto; lia.
    + intros [[_ Hz] Hc]. split; [exact Hz | now rewrite Hc].
Qed.

End RunFacts.

Lemma currentBlock_succeeds_iff_witness :
  snd (fst (currentBlock example_hash example_abi_JSON [1%nat]
              (example_client 1000 example_logs))) = None
  /\ fst (currentBlock example_hash example_abi_JSON [1%nat]
            (example_client 1000 [short_log]))
     = ([], Some "no logs in map to sort"%string).
Proof.
  split.
  - apply (proj1 (currentBlock_succeeds_iff example_hash example_abi_JSON
                    [1%nat] (example_client 1000 example_logs))).
    exists 1000, example_logs, example_ABI.
    repeat split; try reflexivity. vm_compute. discriminate.
  - apply (proj2 (currentBlock_succeeds_iff example_hash example_abi_JSON
                    [1%nat] (example_client 1000 [short_log]))
             1000 [short_log] example_ABI); reflexivity.
Defined.

Lemma currentBlock_ranks_mentions_witness :
  mkMetric addr_A 4
  ∈ fst (fst (currentBlock example_hash example_abi_JSON [1%nat]
                (example_client 1000 example_logs))).
Proof.
  apply (proj2 (currentBlock_ranks_mentions example_hash example_abi_JSON
                  [1%nat] (example_client 1000 example_logs) 1000
                  example_logs example_ABI
                  eq_refl eq_refl eq_refl
                  ltac:(vm_compute; discriminate) (mkMetric addr_A 4))).
  split; [|vm_compute; reflexivity].
  unfold participants. apply elem_of_difference. split.
  - apply elem_of_list_to_set. vm_compute. left.
  - intros Hz. apply elem_of_singleton in Hz. discriminate.
Defined.
